(** * examples/client.py: a streaming multipart upload client

    The script reads a local file in chunks of 64 KiB through an
    asynchronous generator ([file_sender]), registers three such streams and
    three text values in a multipart form, posts the form once, prints the
    answer and asserts on its status ([req]).

    The embedding is shallow: Python objects live in an explicit store
    ([State]), everything outside the script (file system, network, the
    server) is an environment ([Env]), and effectful code is written in a
    small reader/state/exception monad [M]. *)

From stdpp Require Import gmap strings list.
From Stdlib Require Import ZArith Lia Ascii.

Local Open Scope Z_scope.
Local Open Scope nat_scope.

(** ** Data *)

(** Python [bytes]. *)
Abbreviation bytes := (list Byte.byte).

(** The exceptions that can travel through the script. *)
Inductive exn : Type :=
  | FileNotFoundError
  | IOError
  | ValueError
  | ClientConnectionError
  | AssertionError.

(** The result of running a piece of code: a value, a raised exception, or
    the loop bound of the model used up (shown never to happen, see
    [drain_terminates] and [req_terminates]). *)
Inductive outcome (A : Type) : Type :=
  | Ok (a : A)
  | Raise (e : exn)
  | OutOfFuel.
Arguments Ok {A} a.
Arguments Raise {A} e.
Arguments OutOfFuel {A}.

(** A file of the file system: what it holds, whether it may be opened for
    reading, and the offset of a damaged byte, if any: a read that would
    return that byte fails. *)
Record file : Type := File {
  content : bytes;
  readable : bool;
  fault_at : option nat
}.

(** An open file object: the path it was opened on and its position. *)
Record handle : Type := Handle {
  h_path : string;
  h_pos : nat
}.

(** The frame of one [file_sender] generator object: not started yet,
    suspended at the [yield] of line 17 inside the [async with] block (with
    its locals [file_name] and [f]), or finished. *)
Inductive generator : Type :=
  | Created (file_name : string)
  | Suspended (file_name : string) (f : nat)
  | Finished.

(** What [add_field] stores: a text value, or a reference to a generator
    object of the store. *)
Inductive field_value : Type :=
  | Text (s : string)
  | Stream (g : nat).

Record form_field : Type := Field {
  fld_name : string;
  fld_value : field_value;
  fld_filename : option string
}.

Record FormData : Type := mkFormData {
  quote_fields : bool;
  fields : list form_field
}.

(** The [Content-Disposition] section of a part, as generated: the [name]
    and [filename] parameters of a [form-data] disposition. *)
Record disposition : Type := Disposition {
  disp_name : string;
  disp_filename : option string
}.

(** One part of the encoded body: its header section and its payload, in
    the pieces in which it was written. *)
Record part : Type := Part {
  part_disposition : disposition;
  part_payload : list bytes
}.

Record response : Type := Response {
  resp_status : Z;
  resp_text : string
}.

(** What the network does with a posted body. *)
Inductive reply : Type :=
  | Answered (r : response)
  | ConnectionLost.

(** Everything the script does not define itself: the files, whether the
    server can be reached, and what it answers to a posted body. *)
Record Env : Type := mkEnv {
  fs : gmap string file;
  connect_ok : bool;
  serve : string -> list part -> reply
}.

(** What a run leaves behind, in the order in which it happened. *)
Inductive event : Type :=
  | EvOpen (path : string) (f : nat)
  | EvOpenFailed (path : string)
  | EvRead (f : nat) (n : nat)
  | EvReadFailed (f : nat)
  | EvClose (f : nat)
  | EvPost (url : string) (body : list part)
  | EvPrint (text : string)
  | EvAssert (holds : bool).

(** The store: open file objects, generator objects, and the log. *)
Record State : Type := mkState {
  handles : gmap nat handle;
  next_fd : nat;
  gens : gmap nat generator;
  next_gen : nat;
  log : list event
}.

Definition init : State :=
  {| handles := ∅; next_fd := 0; gens := ∅; next_gen := 0; log := [] |}.

Definition set_handles (hs : gmap nat handle) (st : State) : State :=
  {| handles := hs; next_fd := next_fd st; gens := gens st;
     next_gen := next_gen st; log := log st |}.

Definition set_gens (gs : gmap nat generator) (st : State) : State :=
  {| handles := handles st; next_fd := next_fd st; gens := gs;
     next_gen := next_gen st; log := log st |}.

Definition add_log (e : event) (st : State) : State :=
  {| handles := handles st; next_fd := next_fd st; gens := gens st;
     next_gen := next_gen st; log := log st ++ [e] |}.

(** ** The monad *)

Definition M (A : Type) : Type := Env -> State -> outcome A * State.

Definition ret {A : Type} (a : A) : M A := fun _ st => (Ok a, st).

Definition raise {A : Type} (e : exn) : M A := fun _ st => (Raise e, st).

Definition out_of_fuel {A : Type} : M A := fun _ st => (OutOfFuel, st).

Definition bind {A B : Type} (m : M A) (k : A -> M B) : M B :=
  fun env st =>
    match m env st with
    | (Ok a, st') => k a env st'
    | (Raise e, st') => (Raise e, st')
    | (OutOfFuel, st') => (OutOfFuel, st')
    end.

Notation "'let*' x ':=' m 'in' k" := (bind m (fun x => k))
  (at level 10, x name, m at level 100, k at level 200, only parsing).

Notation "m1 '>>' m2" := (bind m1 (fun _ => m2))
  (at level 100, m2 at level 200, right associativity, only parsing).

(** [m] with a handler that runs when [m] raises, after which the exception
    travels on: the exit of an [async with] block on the exception path. *)
Definition on_raise {A : Type} (m : M A) (h : M unit) : M A :=
  fun env st =>
    match m env st with
    | (Raise e, st') => (Raise e, snd (h env st'))
    | r => r
    end.

Definition emit (e : event) : M unit := fun _ st => (Ok tt, add_log e st).

(** ** Files (aiofiles) *)

(** Modelled from the spec: [aiofiles.open(path, 'rb')], which is not part
    of the repository. "Fails with FileNotFoundError-kind error if the path
    does not exist or is unreadable". A successful open gives a fresh file
    object positioned at offset 0. *)
Definition aio_open (path : string) : M nat :=
  fun env st =>
    match fs env !! path with
    | Some fl =>
        if readable fl then
          let f := next_fd st in
          (Ok f,
           add_log (EvOpen path f)
             {| handles := <[f := Handle path 0]> (handles st);
                next_fd := S f; gens := gens st; next_gen := next_gen st;
                log := log st |})
        else (Raise FileNotFoundError, add_log (EvOpenFailed path) st)
    | None => (Raise FileNotFoundError, add_log (EvOpenFailed path) st)
    end.

(** Does a read of [chunk] at offset [pos] touch the damaged byte? *)
Definition faulty (fl : file) (pos : nat) (chunk : bytes) : bool :=
  match fault_at fl with
  | Some k => (pos <=? k) && (k <? pos + length chunk)
  | None => false
  end.

(** Modelled from the spec: [f.read(n)] of a file object opened in binary
    mode. "Reads up to [n] bytes from the current position; returns the
    bytes read ... Advances position by the number of bytes returned";
    "fails with IOError-kind error on read faults". Reading a closed file
    object is Python's [ValueError]. *)
Definition aio_read (f : nat) (n : nat) : M bytes :=
  fun env st =>
    match handles st !! f with
    | Some h =>
        match fs env !! h_path h with
        | Some fl =>
            let chunk := take n (drop (h_pos h) (content fl)) in
            if faulty fl (h_pos h) chunk then
              (Raise IOError, add_log (EvReadFailed f) st)
            else
              (Ok chunk,
               add_log (EvRead f (length chunk))
                 (set_handles
                    (<[f := Handle (h_path h) (h_pos h + length chunk)]>
                       (handles st)) st))
        | None => (Raise IOError, add_log (EvReadFailed f) st)
        end
    | None => (Raise ValueError, st)
    end.

(** Modelled from the spec: closing, the "release" of the file handle. The
    file object leaves the table of open files; closing twice is harmless. *)
Definition aio_close (f : nat) : M unit :=
  fun _ st =>
    (Ok tt, add_log (EvClose f) (set_handles (delete f (handles st)) st)).

(** ** [file_sender] (lines 13-18) *)

(** [64*1024] of lines 15 and 18. *)
Definition chunk_size : nat := 64 * 1024.
Arguments chunk_size : simpl never.

Definition get_gen (g : nat) : M generator :=
  fun _ st =>
    match gens st !! g with
    | Some s => (Ok s, st)
    | None => (Raise ValueError, st)
    end.

Definition set_gen (g : nat) (s : generator) : M unit :=
  fun _ st => (Ok tt, set_gens (<[g := s]> (gens st)) st).

(** Calling [file_sender(file_name=...)] runs none of its body: it makes a
    new generator object. *)
Definition file_sender (file_name : string) : M nat :=
  fun _ st =>
    let g := next_gen st in
    (Ok g,
     {| handles := handles st; next_fd := next_fd st;
        gens := <[g := Created file_name]> (gens st);
        next_gen := S g; log := log st |}).

(** Leaving the [async with] block of line 14 closes [f]; the generator is
    finished then, whatever the reason. *)
Definition exit_with (g f : nat) : M unit :=
  aio_close f >> set_gen g Finished.

(** [chunk = await f.read(64*1024)] (line 15 or 18) followed by the test of
    [while chunk] (line 16): a non-empty chunk is yielded (line 17) and the
    generator suspends inside the block; an empty one ends the loop, the
    block and the generator. *)
Definition read_chunk (g : nat) (file_name : string) (f : nat)
  : M (option bytes) :=
  let* chunk := on_raise (aio_read f chunk_size) (exit_with g f) in
  match chunk with
  | [] => exit_with g f >> ret None
  | _ :: _ => set_gen g (Suspended file_name f) >> ret (Some chunk)
  end.

(** [await gen.__anext__()]: run the generator to its next [yield].
    [Some chunk] is a yielded chunk, [None] is [StopAsyncIteration]. *)
Definition anext (g : nat) : M (option bytes) :=
  let* s := get_gen g in
  match s with
  | Created file_name =>
      let* f := on_raise (aio_open file_name) (set_gen g Finished) in
      read_chunk g file_name f
  | Suspended file_name f => read_chunk g file_name f
  | Finished => ret None
  end.

(** [await gen.aclose()]: what a consumer (or the finaliser of the runtime)
    does to a generator it will not iterate further. [GeneratorExit] is
    raised at the [yield], which leaves the [async with] block. *)
Definition aclose (g : nat) : M unit :=
  let* s := get_gen g in
  match s with
  | Created _ => set_gen g Finished
  | Suspended _ f => exit_with g f
  | Finished => ret tt
  end.

(** [async for chunk in gen]: call [anext] until [StopAsyncIteration] and
    collect what was yielded. *)
Fixpoint async_for (fuel : nat) (g : nat) : M (list bytes) :=
  match fuel with
  | O => out_of_fuel
  | S k =>
      let* r := anext g in
      match r with
      | None => ret []
      | Some chunk => let* rest := async_for k g in ret (chunk :: rest)
      end
  end.

(** The number of bytes the generator [g] has still to deliver. *)
Definition remaining (env : Env) (st : State) (g : nat) : nat :=
  match gens st !! g with
  | Some (Created file_name) =>
      match fs env !! file_name with
      | Some fl => S (length (content fl))
      | None => 0
      end
  | Some (Suspended _ f) =>
      match handles st !! f with
      | Some h =>
          match fs env !! h_path h with
          | Some fl => length (content fl) - h_pos h
          | None => 0
          end
      | None => 0
      end
  | _ => 0
  end.

(** Iterating a generator to its end. The loop bound is taken from the
    size of the file, which is enough ([drain_terminates]). *)
Definition drain (g : nat) : M (list bytes) :=
  fun env st => async_for (S (remaining env st g)) g env st.

(** ** The multipart form (aiohttp) *)

(** Modelled from the spec: [aiohttp.FormData(quote_fields=...)], which is
    not part of the repository: an empty form that remembers "a flag
    controlling whether field names/filenames are quoted in the generated
    headers". *)
Definition new_form (quote : bool) : FormData :=
  {| quote_fields := quote; fields := [] |}.

(** Modelled from the spec: [FormData.add_field], which is not part of the
    repository. The form keeps an "ordered sequence of MultipartField";
    "field name uniqueness is NOT required". *)
Definition add_field (data : FormData) (name : string) (value : field_value)
    (filename : option string) : FormData :=
  {| quote_fields := quote_fields data;
     fields := fields data ++ [Field name value filename] |}.

(** The two characters a quoted-string cannot hold as they are: the double
    quote and the backslash. *)
Definition dquote : ascii := "034"%char.
Definition backslash : ascii := "092"%char.

Definition special (c : ascii) : bool :=
  Ascii.eqb c dquote || Ascii.eqb c backslash.

(** Modelled from the spec: "standard quoted-string escaping", the escaping
    of the HTTP library, which is not part of the repository. It is read as
    the quoted-string rule of HTTP (RFC 7230, 3.2.6): a backslash goes before
    every double quote and every backslash; every other character, brackets
    among them, stands for itself. *)
Fixpoint quoted_string (s : string) : string :=
  match s with
  | EmptyString => EmptyString
  | String c rest =>
      if special c then String backslash (String c (quoted_string rest))
      else String c (quoted_string rest)
  end.

(** Modelled from the spec: the header-quoting policy of the HTTP library.
    "When [quote_fields] is false, field name and filename values are
    embedded in the Content-Disposition header without ... escaping rules
    normally applied to quoted-string parameters; when true, standard
    quoting applies." *)
Definition header_param (quote : bool) (v : string) : string :=
  if quote then quoted_string v else v.

(** Modelled from the spec: the [Content-Disposition] section the library
    generates for a field, with its "field name and filename values". *)
Definition content_disposition (quote : bool) (fld : form_field)
  : disposition :=
  {| disp_name := header_param quote (fld_name fld);
     disp_filename := header_param quote <$> fld_filename fld |}.

(** UTF-8 bytes of a text value (Rocq strings are byte strings). *)
Definition encode (s : string) : bytes := String.list_byte_of_string s.

(** Modelled from the spec: the payload of a part. "For each FileField, the
    content source is drained via the Chunked File Reader's lazy sequence
    and written chunk-by-chunk into the part's payload section ... For each
    TextField, the value is UTF-8 encoded and written directly." *)
Definition payload (v : field_value) : M (list bytes) :=
  match v with
  | Text s => ret [encode s]
  | Stream g => drain g
  end.

(** Modelled from the spec: [build_body], the parts of the body in the
    order of the fields, each drained when its turn comes. *)
Fixpoint build_body (quote : bool) (flds : list form_field)
  : M (list part) :=
  match flds with
  | [] => ret []
  | fld :: rest =>
      let* chunks := payload (fld_value fld) in
      let* parts := build_body quote rest in
      ret (Part (content_disposition quote fld) chunks :: parts)
  end.

(** Modelled from the spec: [session.post(url, data=data)]. "Sends a single
    HTTP POST ... and the assembled body as payload"; "connection refused /
    DNS failure / timeout surface as transport-kind errors ... unrecovered
    in this minimal client (no retry)". The connection can fail before the
    body is read or after it has been sent; a connection that breaks while
    the body is being sent (the spec's [SendFailed]) has no counterpart
    here. *)
Definition post (url : string) (data : FormData) : M response :=
  fun env =>
    (if connect_ok env then
       let* body := build_body (quote_fields data) (fields data) in
       emit (EvPost url body) >>
       match serve env url body with
       | Answered r => ret r
       | ConnectionLost => raise ClientConnectionError
       end
     else raise ClientConnectionError) env.

(** ** [req] (lines 21-34) *)

Definition file_name : string := "test.png".
Definition url : string := "http://localhost:8080/upload".

Definition print (text : string) : M unit := emit (EvPrint text).

(** [assert expected == resp.status] (line 34; the spec's [validate]). *)
Definition assert_status (expected : Z) (resp : response) : M unit :=
  let holds := (expected =? resp_status resp)%Z in
  emit (EvAssert holds) >>
  if holds then ret tt else raise AssertionError.

Definition req : M unit :=
  let data := new_form false in
  let* s1 := file_sender file_name in
  let data := add_field data "files[]" (Stream s1) (Some "image1.png") in
  let* s2 := file_sender file_name in
  let data := add_field data "files[]" (Stream s2) (Some "image2.png") in
  let* s3 := file_sender file_name in
  let data := add_field data "files[]" (Stream s3) (Some "image3.png") in
  let data := add_field data "Hey" (Text "hi") None in
  let data := add_field data "Hi[One]" (Text "1") None in
  let data := add_field data "Hi[Two]" (Text "2.0") None in
  let* resp := post url data in
  let text := resp_text resp in
  print text >>
  assert_status 201 resp.

(** ** Vocabulary of the statements *)

(** How [file_sender] cuts a byte sequence: pieces of [n] bytes taken from
    the front for as long as something is left. *)
Inductive Chunks (n : nat) : bytes -> list bytes -> Prop :=
  | Chunks_end : Chunks n [] []
  | Chunks_more (l : bytes) (cs : list bytes) :
      l <> [] -> Chunks n (drop n l) cs -> Chunks n l (take n l :: cs).

(** Events of the file system, as opposed to those of [req] itself. *)
Definition file_event (e : event) : Prop :=
  match e with
  | EvPost _ _ | EvPrint _ | EvAssert _ => False
  | _ => True
  end.

(** What a run added to the log. *)
Definition trace {A : Type} (m : M A) (env : Env) (st : State) : list event :=
  drop (length (log st)) (log (snd (m env st))).

(** Code that comes back, and code that only touches files. *)
Definition terminates {A : Type} (m : M A) : Prop :=
  forall env st, fst (m env st) <> OutOfFuel.

Definition files_only {A : Type} (m : M A) : Prop :=
  forall env st, exists evs,
    log (snd (m env st)) = log st ++ evs /\ Forall file_event evs.

(** File objects are numbered below [next_fd]. *)
Definition fds_fresh (st : State) : Prop :=
  forall f, next_fd st <= f -> handles st !! f = None.

(** A file that opens and reads without trouble. *)
Definition healthy (env : Env) (path : string) (fl : file) : Prop :=
  fs env !! path = Some fl /\ readable fl = true /\ fault_at fl = None.

(** What a consumer can do to a generator, and a consumer that does such
    things one after the other, whatever comes back. *)
Inductive gen_op : Type := OpNext | OpClose.

Definition run_op (g : nat) (op : gen_op) : M unit :=
  match op with
  | OpNext => anext g >> ret tt
  | OpClose => aclose g
  end.

Definition exec_ops (env : Env) (g : nat) (ops : list gen_op) (st : State)
  : State :=
  foldl (fun st' op => snd (run_op g op env st')) st ops.

(** Adding fields one after the other. *)
Definition add_all (data : FormData) (flds : list form_field) : FormData :=
  foldl (fun d fld => add_field d (fld_name fld) (fld_value fld)
                        (fld_filename fld)) data flds.

(** The reading loop entered at one of its two reads (line 15 or 18). *)
Definition loop_at_read (fuel g : nat) (file_name : string) (f : nat)
  : M (list bytes) :=
  let* r := read_chunk g file_name f in
  match r with
  | None => ret []
  | Some chunk => let* rest := async_for fuel g in ret (chunk :: rest)
  end.

(** The state right after a successful [aio_open]. *)
Definition opened (path : string) (st : State) : State :=
  add_log (EvOpen path (next_fd st))
    {| handles := <[next_fd st := Handle path 0]> (handles st);
       next_fd := S (next_fd st); gens := gens st; next_gen := next_gen st;
       log := log st |}.

(** The number of bytes between the position of a file object and the end
    of its file. *)
Definition left_in (env : Env) (st : State) (f : nat) : nat :=
  match handles st !! f with
  | Some h =>
      match fs env !! h_path h with
      | Some fl => length (content fl) - h_pos h
      | None => 0
      end
  | None => 0
  end.

(** [[chunk async for chunk in file_sender(path)]]: a new generator,
    iterated to its end. *)
Definition read_all (path : string) : M (list bytes) :=
  let* g := file_sender path in drain g.

(** What a generator holds on top of the file objects [base] that were
    open before it was made: one file object while it is suspended inside
    the [async with] block, nothing before its first step and nothing once
    it has finished. *)
Definition holds_only (base : gmap nat handle) (g : nat) (st : State) : Prop :=
  (forall f, next_fd st <= f -> base !! f = None) /\
  match gens st !! g with
  | Some (Suspended p f) =>
      base !! f = None /\ exists pos, handles st = <[f := Handle p pos]> base
  | Some _ => handles st = base
  | None => False
  end.

(** A step that did not yield has ended the generator. *)
Definition ended_unless_yield (g : nat) (r : outcome (option bytes) * State)
  : Prop :=
  match fst r with
  | Ok (Some _) => True
  | _ => gens (snd r) !! g = Some Finished
  end.

(** The store after lines 24-26 have made their three generator objects,
    and the form of lines 23-29, which refers to them. *)
Definition registered (st : State) : State :=
  let g := next_gen st in
  mkState (handles st) (next_fd st)
    (<[S (S g) := Created file_name]>
       (<[S g := Created file_name]> (<[g := Created file_name]> (gens st))))
    (S (S (S g))) (log st).

Definition reference_fields (g : nat) : list form_field :=
  [ Field "files[]" (Stream g) (Some "image1.png");
    Field "files[]" (Stream (S g)) (Some "image2.png");
    Field "files[]" (Stream (S (S g))) (Some "image3.png");
    Field "Hey" (Text "hi") None;
    Field "Hi[One]" (Text "1") None;
    Field "Hi[Two]" (Text "2.0") None ].

Definition reference_form (g : nat) : FormData :=
  mkFormData false (reference_fields g).

(** The body of the reference scenario when the file reads as [cs]. *)
Definition reference_body (cs : list bytes) : list part :=
  [ Part (Disposition "files[]" (Some "image1.png")) cs;
    Part (Disposition "files[]" (Some "image2.png")) cs;
    Part (Disposition "files[]" (Some "image3.png")) cs;
    Part (Disposition "Hey" None) [encode "hi"];
    Part (Disposition "Hi[One]" None) [encode "1"];
    Part (Disposition "Hi[Two]" None) [encode "2.0"] ].

(** Lines 32-34: what [req] does with a response. *)
Definition report (resp : response) : M unit :=
  print (resp_text resp) >> assert_status 201 resp.

(** The number of requests in a log. *)
Definition posts (l : list event) : nat :=
  length (List.filter
            (fun e => match e with EvPost _ _ => true | _ => false end) l).

(** The three ways a run of [req] can go: it stops before anything is
    posted (no connection, or a file error while the body is read), the
    connection is lost after the body was posted, or an answer comes back,
    is printed, and its status is checked. *)
Inductive req_shape (env : Env) : outcome unit -> list event -> Prop :=
  | req_not_posted e evs :
      Forall file_event evs -> req_shape env (Raise e) evs
  | req_lost evs body :
      Forall file_event evs ->
      serve env url body = ConnectionLost ->
      req_shape env (Raise ClientConnectionError) (evs ++ [EvPost url body])
  | req_answered evs body resp :
      Forall file_event evs ->
      serve env url body = Answered resp ->
      req_shape env
        (if (201 =? resp_status resp)%Z then Ok tt else Raise AssertionError)
        (evs ++ [EvPost url body; EvPrint (resp_text resp);
                 EvAssert (201 =? resp_status resp)%Z]).

(** The [Content-Disposition] sections of the reference scenario. *)
Definition reference_dispositions : list disposition :=
  [ Disposition "files[]" (Some "image1.png");
    Disposition "files[]" (Some "image2.png");
    Disposition "files[]" (Some "image3.png");
    Disposition "Hey" None;
    Disposition "Hi[One]" None;
    Disposition "Hi[Two]" None ].

(** A path that cannot be opened: nothing there, or not readable. *)
Definition cannot_open (env : Env) (path : string) : Prop :=
  fs env !! path = None \/
  exists fl, fs env !! path = Some fl /\ readable fl = false.

(** The parts of a body that carry a given field name. *)
Definition parts_named (name : string) (body : list part) : list part :=
  List.filter (fun p => String.eqb (disp_name (part_disposition p)) name) body.

(** A generator that is not inside its [async with] block: not started,
    or finished. *)
Definition idle (st : State) (g : nat) : Prop :=
  gens st !! g = Some Finished \/ exists p, gens st !! g = Some (Created p).

(** Where a step leaves the generator: at the [yield] when it yielded,
    finished otherwise. *)
Definition stepped (g : nat) (r : outcome (option bytes) * State) : Prop :=
  match fst r with
  | Ok (Some _) => exists p f, gens (snd r) !! g = Some (Suspended p f)
  | OutOfFuel => False
  | _ => gens (snd r) !! g = Some Finished
  end.

(** The file object a generator holds, if it is inside its block. *)
Definition file_of (st : State) (g : nat) : option nat :=
  match gens st !! g with
  | Some (Suspended _ f) => Some f
  | _ => None
  end.

(** The generator [g] is at the same point of the same file in two
    states: not started on the same path, suspended on file objects with
    the same path and position, or finished. *)
Definition same_stream (g : nat) (st1 st2 : State) : Prop :=
  match gens st1 !! g, gens st2 !! g with
  | Some (Created p1), Some (Created p2) => p1 = p2
  | Some (Suspended _ f1), Some (Suspended _ f2) =>
      handles st1 !! f1 = handles st2 !! f2
  | Some Finished, Some Finished => True
  | None, None => True
  | _, _ => False
  end.

(** The reads a file object logs for the chunks [cs]. *)
Definition reads_of (f : nat) (cs : list bytes) : list event :=
  (fun c => EvRead f (length c)) <$> cs.



(** A name with a double quote in it: a, double quote, b. *)
Definition quoted_name : string := String "a" (String dquote "b").

(** ** Worlds for the examples *)

(** Worlds to run things in: a file system with the one file [test.png]
    (or none), a server that always gives the same answer. *)
Definition demo_env (fl : option file) (up : bool) (r : reply) : Env :=
  {| fs := match fl with Some f => {[ file_name := f ]} | None => ∅ end;
     connect_ok := up;
     serve := fun _ _ => r |}.

Definition png (data : bytes) : option file := Some (File data true None).

Definition created : reply := Answered (Response 201 "created").

Definition three_bytes : bytes := [Byte.x50; Byte.x4e; Byte.x47].

Definition one_chunk : bytes := replicate chunk_size Byte.x00.

(** [test.png] with a damaged byte at offset 1. *)
Definition damaged : option file := Some (File three_bytes true (Some 1)).

(** A server that rejects the upload. *)
Definition rejected : reply := Answered (Response 400 "bad request").

(** The file of the end-to-end scenario: 200000 bytes. *)
Definition scenario_bytes : bytes :=
  replicate (Z.to_nat 200000) Byte.x2a.

(** Two of the streams of [req] under way on the 200000 bytes of the
    scenario: generator 1 has delivered its first chunk and waits inside
    its block, generator 0 has not started. *)
Definition scenario_env : Env := demo_env (png scenario_bytes) true created.

Definition two_streams : State :=
  exec_ops scenario_env 1 [OpNext] (registered init).

(** ** Chunking, on lists *)

Lemma chunk_size_pos : 0 < chunk_size.
Proof. apply Nat.ltb_lt. by vm_compute. Qed.

Lemma chunk_size_Z : Z.of_nat chunk_size = 65536%Z.
Proof. by vm_compute. Qed.

Lemma take_nil_inv (n : nat) (l : bytes) : 0 < n -> take n l = [] -> l = [].
Proof. destruct n, l; simpl; intros; (lia || congruence). Qed.

Lemma drop_take_length (n : nat) (l : bytes) :
  drop (length (take n l)) l = drop n l.
Proof.
  rewrite length_take.
  destruct (Nat.le_gt_cases n (length l)) as [Hle|Hgt].
  - by rewrite Nat.min_l.
  - rewrite Nat.min_r by lia. rewrite !drop_ge; (done || lia).
Qed.

Lemma Chunks_concat n l cs : Chunks n l cs -> concat cs = l.
Proof.
  induction 1 as [|l cs _ _ IH]; simpl; [done|].
  rewrite IH. apply take_drop.
Qed.

Lemma Chunks_nonempty n l cs :
  0 < n -> Chunks n l cs -> Forall (fun c => c <> []) cs.
Proof.
  intros Hn. induction 1 as [|l cs Hl _ IH]; constructor; [|done].
  intros Hnil. by apply Hl, (take_nil_inv n).
Qed.

Lemma Chunks_bounded n l cs :
  Chunks n l cs -> Forall (fun c => length c <= n) cs.
Proof.
  induction 1 as [|l cs _ _ IH]; constructor; [|done].
  rewrite length_take. lia.
Qed.

Lemma Chunks_full n l cs :
  Chunks n l cs ->
  forall i c, cs !! i = Some c -> S i < length cs -> length c = n.
Proof.
  induction 1 as [|l cs Hl Hcs IH]; intros i c Hi Hlt; [done|].
  destruct i as [|i]; simpl in *.
  - injection Hi as <-. rewrite length_take.
    inversion Hcs as [Hd|l' cs' Hd _]; subst; simpl in Hlt; [lia|].
    destruct (Nat.le_gt_cases (length l) n) as [Hle|Hgt]; [|lia].
    by rewrite drop_ge in Hd.
  - apply (IH i); [done|lia].
Qed.

Lemma Chunks_multiple n l cs :
  0 < n -> Chunks n l cs ->
  forall k, length l = k * n ->
    length cs = k /\ Forall (fun c => length c = n) cs.
Proof.
  intros Hn. induction 1 as [|l cs Hl _ IH]; intros k Hk.
  - split; [|constructor]. destruct k; [done|simpl in Hk; lia].
  - destruct k as [|k].
    + destruct l; [done|simpl in Hk; lia].
    + simpl in Hk.
      destruct (IH k) as [Hlen Hall].
      { rewrite length_drop. lia. }
      split; [simpl; lia|].
      constructor; [|done]. rewrite length_take. lia.
Qed.

Lemma Chunks_fun n l cs cs' : Chunks n l cs -> Chunks n l cs' -> cs = cs'.
Proof.
  intros H. revert cs'.
  induction H as [|l cs Hl _ IH]; intros cs' H'.
  - by inversion H'.
  - inversion H' as [Hd|l' cs'' _ Hcs'']; subst; [done|].
    f_equal. by apply IH.
Qed.

(** ** One step of the generator *)

Ltac run_monad :=
  unfold loop_at_read, read_chunk, exit_with, on_raise, bind, ret, raise,
    aio_read, aio_close, set_gen, get_gen, emit,
    set_gens, add_log, set_handles; simpl.

Lemma state_eq hs hs' n gs gs' m l l' :
  hs = hs' -> gs = gs' -> l = l' -> mkState hs n gs m l = mkState hs' n gs' m l'.
Proof. by intros -> -> ->. Qed.

Lemma faulty_nil fl pos : faulty fl pos [] = false.
Proof.
  unfold faulty. destruct (fault_at fl) as [k|]; [|done].
  simpl. destruct (Nat.leb_spec pos k), (Nat.ltb_spec k (pos + 0)); simpl; (done || lia).
Qed.

(** The read finds nothing left: the block and the generator end. *)
Lemma read_chunk_eof env st g p f path pos fl :
  handles st !! f = Some (Handle path pos) ->
  fs env !! path = Some fl ->
  drop pos (content fl) = [] ->
  read_chunk g p f env st =
    (Ok None,
     mkState (delete f (handles st)) (next_fd st)
       (<[g := Finished]> (gens st)) (next_gen st)
       (log st ++ [EvRead f 0; EvClose f])).
Proof.
  intros Hh Hfs Hd. run_monad.
  rewrite Hh; simpl. rewrite Hfs, Hd, take_nil, faulty_nil; simpl.
  f_equal. apply state_eq; [|done|by rewrite <- app_assoc].
  by rewrite delete_insert_eq.
Qed.

(** The read returns bytes: they are yielded, the generator waits. *)
Lemma read_chunk_more env st g p f path pos fl c :
  handles st !! f = Some (Handle path pos) ->
  fs env !! path = Some fl ->
  take chunk_size (drop pos (content fl)) = c ->
  c <> [] ->
  faulty fl pos c = false ->
  read_chunk g p f env st =
    (Ok (Some c),
     mkState (<[f := Handle path (pos + length c)]> (handles st)) (next_fd st)
       (<[g := Suspended p f]> (gens st)) (next_gen st)
       (log st ++ [EvRead f (length c)])).
Proof.
  intros Hh Hfs Hc Hne Hf. run_monad.
  rewrite Hh; simpl. rewrite Hfs, Hc, Hf; simpl.
  by destruct c.
Qed.

(** The read fails: the block is left, the file closed, the error goes on. *)
Lemma read_chunk_fault env st g p f path pos fl :
  handles st !! f = Some (Handle path pos) ->
  fs env !! path = Some fl ->
  faulty fl pos (take chunk_size (drop pos (content fl))) = true ->
  read_chunk g p f env st =
    (Raise IOError,
     mkState (delete f (handles st)) (next_fd st)
       (<[g := Finished]> (gens st)) (next_gen st)
       (log st ++ [EvReadFailed f; EvClose f])).
Proof.
  intros Hh Hfs Hf. run_monad.
  rewrite Hh; simpl. rewrite Hfs, Hf; simpl.
  f_equal. apply state_eq; [done|done|by rewrite <- app_assoc].
Qed.

(** The first [anext] opens the file and goes to the first read. *)
Lemma anext_created env st g path fl :
  gens st !! g = Some (Created path) ->
  fs env !! path = Some fl ->
  readable fl = true ->
  anext g env st = read_chunk g path (next_fd st) env (opened path st).
Proof.
  intros Hg Hfs Hr. unfold anext, bind at 1, get_gen. rewrite Hg.
  unfold bind at 1, on_raise, aio_open. by rewrite Hfs, Hr.
Qed.

(** A later [anext] resumes after the [yield], at the second read. *)
Lemma anext_suspended env st g path f :
  gens st !! g = Some (Suspended path f) ->
  anext g env st = read_chunk g path f env st.
Proof. intros Hg. unfold anext, bind at 1, get_gen. by rewrite Hg. Qed.

Lemma anext_finished env st g :
  gens st !! g = Some Finished -> anext g env st = (Ok None, st).
Proof. intros Hg. unfold anext, bind at 1, get_gen. by rewrite Hg. Qed.

(** A path that is missing or unreadable: the first [anext] raises and the
    generator is finished. *)
Lemma anext_open_fails env st g path :
  gens st !! g = Some (Created path) ->
  (fs env !! path = None \/
   exists fl, fs env !! path = Some fl /\ readable fl = false) ->
  anext g env st =
    (Raise FileNotFoundError,
     mkState (handles st) (next_fd st) (<[g := Finished]> (gens st))
       (next_gen st) (log st ++ [EvOpenFailed path])).
Proof.
  intros Hg Hfs. unfold anext, bind at 1, get_gen. rewrite Hg.
  unfold bind, on_raise, aio_open.
  destruct Hfs as [->|(fl & -> & ->)]; reflexivity.
Qed.

Lemma async_for_suspended env st k g path f :
  gens st !! g = Some (Suspended path f) ->
  async_for (S k) g env st = loop_at_read k g path f env st.
Proof.
  intros Hg. simpl. unfold loop_at_read, bind at 1.
  rewrite (anext_suspended _ _ _ _ _ Hg). reflexivity.
Qed.

Lemma async_for_created env st k g path fl :
  gens st !! g = Some (Created path) ->
  fs env !! path = Some fl ->
  readable fl = true ->
  async_for (S k) g env st =
    loop_at_read k g path (next_fd st) env (opened path st).
Proof.
  intros Hg Hfs Hr. simpl. unfold loop_at_read, bind at 1.
  rewrite (anext_created _ _ _ _ _ Hg Hfs Hr). reflexivity.
Qed.

(** ** The reading loop *)

Section Reading.
Context (env : Env) (g : nat) (path : string) (f : nat) (fl : file).
Hypothesis Hfs : fs env !! path = Some fl.

(** On a file without a damaged byte the loop delivers the rest of the
    file, cut at every [chunk_size] bytes, and closes the file. *)
Lemma loop_at_read_ok :
  fault_at fl = None ->
  forall k st pos,
    handles st !! f = Some (Handle path pos) ->
    length (content fl) - pos <= k ->
    exists cs evs,
      loop_at_read k g path f env st =
        (Ok cs,
         mkState (delete f (handles st)) (next_fd st)
           (<[g := Finished]> (gens st)) (next_gen st) (log st ++ evs))
      /\ Chunks chunk_size (drop pos (content fl)) cs
      /\ Forall file_event evs.
Proof.
  intros Hnf. induction k as [|k IH]; intros st pos Hh Hk.
  all: destruct (take chunk_size (drop pos (content fl))) as [|b c] eqn:Hc.
  all: try (apply take_nil_inv in Hc; [|apply chunk_size_pos];
            exists [], [EvRead f 0; EvClose f];
            unfold loop_at_read, bind;
            rewrite (read_chunk_eof _ _ _ _ _ _ _ _ Hh Hfs Hc), Hc;
            repeat split; [constructor|by repeat constructor]).
  - rewrite drop_ge in Hc by lia. by destruct chunk_size.
  - assert (Hlen : length (b :: c) <= length (content fl) - pos).
    { rewrite <- Hc, length_take, length_drop. lia. }
    unfold loop_at_read, bind at 1.
    rewrite (read_chunk_more _ _ _ _ _ _ _ _ _ Hh Hfs Hc); [|done|].
    2: { unfold faulty. by rewrite Hnf. }
    unfold bind at 1. erewrite async_for_suspended.
    2: { simpl. apply lookup_insert_eq. }
    match goal with |- context [loop_at_read k g path f env ?s] =>
      destruct (IH s (pos + length (b :: c))) as (cs & evs & -> & Hcs & Hevs)
    end.
    { simpl. apply lookup_insert_eq. }
    { simpl in *. lia. }
    exists ((b :: c) :: cs), (EvRead f (length (b :: c)) :: evs).
    split; [|split].
    + unfold ret. f_equal. cbn [handles next_fd gens next_gen log].
      apply state_eq.
      * by rewrite delete_insert_eq.
      * by rewrite insert_insert_eq.
      * by rewrite <- app_assoc.
    + rewrite <- Hc. constructor.
      * intros Hd. by rewrite Hd, take_nil in Hc.
      * rewrite <- drop_take_length, Hc, drop_drop. exact Hcs.
    + constructor; [exact I|done].
Qed.

(** With a damaged byte ahead, the loop ends in [IOError] when a read
    reaches it, and the file is closed all the same. *)
Lemma loop_at_read_fault j :
  fault_at fl = Some j ->
  j < length (content fl) ->
  forall k st pos,
    handles st !! f = Some (Handle path pos) ->
    pos <= j ->
    length (content fl) - pos <= k ->
    exists ns,
      loop_at_read k g path f env st =
        (Raise IOError,
         mkState (delete f (handles st)) (next_fd st)
           (<[g := Finished]> (gens st)) (next_gen st)
           (log st ++ (EvRead f <$> ns) ++ [EvReadFailed f; EvClose f])).
Proof.
  intros Hf Hj. induction k as [|k IH]; intros st pos Hh Hpos Hk; [lia|].
  destruct (faulty fl pos (take chunk_size (drop pos (content fl))))
    eqn:Hfaulty.
  - exists []. unfold loop_at_read, bind.
    by rewrite (read_chunk_fault _ _ _ _ _ _ _ _ Hh Hfs Hfaulty).
  - remember (take chunk_size (drop pos (content fl))) as c eqn:Hc.
    assert (Hlen : length c = chunk_size `min` (length (content fl) - pos)).
    { by rewrite Hc, length_take, length_drop. }
    pose proof chunk_size_pos as Hn.
    assert (Hpast : pos + length c <= j).
    { unfold faulty in Hfaulty. rewrite Hf in Hfaulty.
      apply andb_false_iff in Hfaulty as [H|H].
      - apply Nat.leb_gt in H. lia.
      - apply Nat.ltb_ge in H. lia. }
    unfold loop_at_read, bind at 1.
    rewrite (read_chunk_more _ _ _ _ _ _ _ _ c Hh Hfs); [|done| |done].
    2: { intros ->. change (length (@nil Byte.byte)) with 0 in Hlen. lia. }
    unfold bind at 1. erewrite async_for_suspended.
    2: { simpl. apply lookup_insert_eq. }
    match goal with |- context [loop_at_read k g path f env ?s] =>
      destruct (IH s (pos + length c)) as (ns & ->)
    end.
    { simpl. apply lookup_insert_eq. }
    { done. }
    { lia. }
    exists (length c :: ns).
    f_equal. cbn [handles next_fd gens next_gen log].
    apply state_eq.
    + by rewrite delete_insert_eq.
    + by rewrite insert_insert_eq.
    + by rewrite <- app_assoc.
Qed.
End Reading.

(** ** Progress and termination *)

Lemma remaining_suspended env st g p f :
  gens st !! g = Some (Suspended p f) -> remaining env st g = left_in env st f.
Proof. intros Hg. unfold remaining, left_in. by rewrite Hg. Qed.

(** A read never loops, and what it yields is not empty and comes off the
    rest of the file. *)
Lemma read_chunk_progress env st g p f :
  match read_chunk g p f env st with
  | (OutOfFuel, _) => False
  | (Ok (Some c), st') =>
      c <> [] /\ gens st' !! g = Some (Suspended p f)
      /\ left_in env st' f < left_in env st f
  | _ => True
  end.
Proof.
  unfold left_in. run_monad.
  destruct (handles st !! f) as [h|] eqn:Hh; simpl; [|done].
  destruct (fs env !! h_path h) as [fl|] eqn:Hfs; simpl; [|done].
  destruct (faulty _ _ _); simpl; [done|].
  destruct (take chunk_size (drop (h_pos h) (content fl))) as [|b c] eqn:Hc;
    simpl; [done|].
  rewrite !lookup_insert_eq. simpl. rewrite Hfs.
  split; [done|split; [done|]].
  apply (f_equal length) in Hc.
  rewrite length_take, length_drop in Hc.
  change (length (b :: c)) with (S (length c)) in Hc. lia.
Qed.

Lemma anext_progress env st g :
  match anext g env st with
  | (OutOfFuel, _) => False
  | (Ok (Some c), st') => c <> [] /\ remaining env st' g < remaining env st g
  | _ => True
  end.
Proof.
  destruct (gens st !! g) as [[p|p f|]|] eqn:Hg.
  - destruct (fs env !! p) as [fl|] eqn:Hfs.
    + destruct (readable fl) eqn:Hr.
      * rewrite (anext_created _ _ _ _ _ Hg Hfs Hr).
        pose proof (read_chunk_progress env (opened p st) g p (next_fd st)) as H.
        destruct (read_chunk _ _ _ _ _) as [[[c|]| |] st']; try done.
        destruct H as (Hc & Hg' & Hlt). split; [done|].
        rewrite (remaining_suspended _ _ _ _ _ Hg').
        unfold remaining. rewrite Hg, Hfs.
        unfold left_in at 2 in Hlt. simpl in Hlt.
        rewrite lookup_insert_eq in Hlt. simpl in Hlt. rewrite Hfs in Hlt. lia.
      * rewrite (anext_open_fails _ _ _ _ Hg); [done|]. right. eauto.
    + rewrite (anext_open_fails _ _ _ _ Hg); [done|]. by left.
  - rewrite (anext_suspended _ _ _ _ _ Hg).
    pose proof (read_chunk_progress env st g p f) as H.
    destruct (read_chunk _ _ _ _ _) as [[[c|]| |] st']; try done.
    destruct H as (Hc & Hg' & Hlt). split; [done|].
    by rewrite (remaining_suspended _ _ _ _ _ Hg'),
      (remaining_suspended _ _ _ _ _ Hg).
  - by rewrite (anext_finished _ _ _ Hg).
  - unfold anext, bind, get_gen. by rewrite Hg.
Qed.

(** The loop of [async for] comes back when its bound exceeds what is left
    to read. *)
Lemma async_for_total fuel :
  forall env st g,
    remaining env st g < fuel -> fst (async_for fuel g env st) <> OutOfFuel.
Proof.
  induction fuel as [|fuel IH]; intros env st g Hlt; [lia|].
  simpl. unfold bind at 1.
  pose proof (anext_progress env st g) as H.
  destruct (anext g env st) as [[[c|]| |] st']; simpl; try done.
  destruct H as [_ H]. unfold bind.
  specialize (IH env st' g ltac:(lia)).
  by destruct (async_for fuel g env st') as [[]].
Qed.

Lemma drain_terminates g : terminates (drain g).
Proof. intros env st. unfold drain. apply async_for_total. lia. Qed.

Lemma terminates_ret {A} (a : A) : terminates (ret a).
Proof. by intros env st. Qed.

Lemma terminates_raise {A} e : terminates (@raise A e).
Proof. by intros env st. Qed.

Lemma terminates_emit e : terminates (emit e).
Proof. by intros env st. Qed.

Lemma terminates_bind {A B} (m : M A) (k : A -> M B) :
  terminates m -> (forall a, terminates (k a)) -> terminates (bind m k).
Proof.
  intros Hm Hk env st. unfold bind.
  specialize (Hm env st).
  destruct (m env st) as [[a| |] st']; simpl in *; try done.
  apply Hk.
Qed.

Lemma payload_terminates v : terminates (payload v).
Proof. destruct v; [apply terminates_ret|apply drain_terminates]. Qed.

Lemma build_body_terminates quote flds : terminates (build_body quote flds).
Proof.
  induction flds as [|fld flds IH]; [apply terminates_ret|].
  simpl.
  apply terminates_bind; [apply payload_terminates|intros chunks].
  apply terminates_bind; [apply IH|intros parts]. apply terminates_ret.
Qed.

Lemma post_terminates u data : terminates (post u data).
Proof.
  intros env. unfold post. destruct (connect_ok env); [|apply terminates_raise].
  apply terminates_bind; [apply build_body_terminates|intros body].
  apply terminates_bind; [apply terminates_emit|intros _].
  destruct (serve env u body); [apply terminates_ret|apply terminates_raise].
Qed.

Lemma assert_status_terminates expected resp :
  terminates (assert_status expected resp).
Proof.
  unfold assert_status.
  apply terminates_bind; [apply terminates_emit|intros _].
  destruct (_ =? _)%Z; [apply terminates_ret|apply terminates_raise].
Qed.

Lemma req_terminates : terminates req.
Proof.
  unfold req.
  repeat (apply terminates_bind; [by intros env st|intros ?]).
  apply terminates_bind; [apply post_terminates|intros resp].
  apply terminates_bind; [apply terminates_emit|intros _].
  apply assert_status_terminates.
Qed.

(** ** What reading leaves in the log *)

Lemma files_only_ret {A} (a : A) : files_only (ret a).
Proof. intros env st. exists []. by rewrite app_nil_r. Qed.

Lemma files_only_raise {A} e : files_only (@raise A e).
Proof. intros env st. exists []. by rewrite app_nil_r. Qed.

Lemma files_only_out_of_fuel {A} : files_only (@out_of_fuel A).
Proof. intros env st. exists []. by rewrite app_nil_r. Qed.

Lemma files_only_emit e : file_event e -> files_only (emit e).
Proof. intros He env st. exists [e]. split; [done|by constructor]. Qed.

Lemma files_only_bind {A B} (m : M A) (k : A -> M B) :
  files_only m -> (forall a, files_only (k a)) -> files_only (bind m k).
Proof.
  intros Hm Hk env st. unfold bind.
  destruct (Hm env st) as (evs & Hlog & Hevs).
  destruct (m env st) as [[a| |] st']; simpl in *; eauto.
  destruct (Hk a env st') as (evs' & Hlog' & Hevs').
  exists (evs ++ evs'). rewrite Hlog', Hlog, app_assoc.
  split; [done|by apply Forall_app].
Qed.

Lemma files_only_on_raise {A} (m : M A) (h : M unit) :
  files_only m -> files_only h -> files_only (on_raise m h).
Proof.
  intros Hm Hh env st. unfold on_raise.
  destruct (Hm env st) as (evs & Hlog & Hevs).
  destruct (m env st) as [[a| |] st']; simpl in *; eauto.
  destruct (Hh env st') as (evs' & Hlog' & Hevs').
  exists (evs ++ evs'). rewrite Hlog', Hlog, app_assoc.
  split; [done|by apply Forall_app].
Qed.

Lemma files_only_set_gen g s : files_only (set_gen g s).
Proof. intros env st. exists []. by rewrite app_nil_r. Qed.

Lemma files_only_get_gen g : files_only (get_gen g).
Proof.
  intros env st. exists []. rewrite app_nil_r. unfold get_gen.
  by destruct (gens st !! g).
Qed.

Lemma files_only_aio_open path : files_only (aio_open path).
Proof.
  intros env st. unfold aio_open.
  destruct (fs env !! path) as [fl|]; [destruct (readable fl)|].
  - exists [EvOpen path (next_fd st)]. split; [done|by constructor].
  - exists [EvOpenFailed path]. split; [done|by constructor].
  - exists [EvOpenFailed path]. split; [done|by constructor].
Qed.

Lemma files_only_aio_read f n : files_only (aio_read f n).
Proof.
  intros env st. unfold aio_read.
  destruct (handles st !! f) as [h|].
  - destruct (fs env !! h_path h) as [fl|]; [destruct (faulty _ _ _)|].
    + exists [EvReadFailed f]. split; [done|by constructor].
    + eexists [EvRead f _]. split; [done|by constructor].
    + exists [EvReadFailed f]. split; [done|by constructor].
  - exists []. by rewrite app_nil_r.
Qed.

Lemma files_only_aio_close f : files_only (aio_close f).
Proof. intros env st. exists [EvClose f]. split; [done|by constructor]. Qed.

Lemma files_only_exit_with g f : files_only (exit_with g f).
Proof.
  apply files_only_bind; [apply files_only_aio_close|intros _].
  apply files_only_set_gen.
Qed.

Lemma files_only_read_chunk g p f : files_only (read_chunk g p f).
Proof.
  apply files_only_bind.
  - apply files_only_on_raise;
      [apply files_only_aio_read|apply files_only_exit_with].
  - intros [|b c].
    + apply files_only_bind; [apply files_only_exit_with|intros _].
      apply files_only_ret.
    + apply files_only_bind; [apply files_only_set_gen|intros _].
      apply files_only_ret.
Qed.

Lemma files_only_anext g : files_only (anext g).
Proof.
  apply files_only_bind; [apply files_only_get_gen|intros [p|p f|]].
  - apply files_only_bind; [|intros f; apply files_only_read_chunk].
    apply files_only_on_raise;
      [apply files_only_aio_open|apply files_only_set_gen].
  - apply files_only_read_chunk.
  - apply files_only_ret.
Qed.

Lemma files_only_aclose g : files_only (aclose g).
Proof.
  apply files_only_bind; [apply files_only_get_gen|intros [p|p f|]].
  - apply files_only_set_gen.
  - apply files_only_exit_with.
  - apply files_only_ret.
Qed.

Lemma files_only_async_for fuel g : files_only (async_for fuel g).
Proof.
  induction fuel as [|fuel IH]; [apply files_only_out_of_fuel|].
  simpl. apply files_only_bind; [apply files_only_anext|intros [c|]].
  - apply files_only_bind; [apply IH|intros rest]. apply files_only_ret.
  - apply files_only_ret.
Qed.

Lemma files_only_drain g : files_only (drain g).
Proof. intros env st. unfold drain. apply files_only_async_for. Qed.

Lemma files_only_payload v : files_only (payload v).
Proof. destruct v; [apply files_only_ret|apply files_only_drain]. Qed.

Lemma files_only_build_body quote flds : files_only (build_body quote flds).
Proof.
  induction flds as [|fld flds IH]; [apply files_only_ret|].
  simpl.
  apply files_only_bind; [apply files_only_payload|intros chunks].
  apply files_only_bind; [apply IH|intros parts]. apply files_only_ret.
Qed.

(** ** Draining a fresh generator *)

Section Draining.
Context (env : Env) (st : State) (g : nat) (path : string).
Hypothesis Hg : gens st !! g = Some (Created path).

Lemma drain_fresh_ok fl :
  healthy env path fl ->
  exists cs evs,
    drain g env st =
      (Ok cs,
       mkState (delete (next_fd st) (handles st)) (S (next_fd st))
         (<[g := Finished]> (gens st)) (next_gen st) (log st ++ evs))
    /\ Chunks chunk_size (content fl) cs
    /\ Forall file_event evs.
Proof.
  intros (Hfs & Hr & Hnf). unfold drain, remaining. rewrite Hg, Hfs.
  rewrite (async_for_created _ _ _ _ _ _ Hg Hfs Hr).
  destruct (loop_at_read_ok env g path (next_fd st) fl Hfs Hnf
              (S (length (content fl))) (opened path st) 0)
    as (cs & evs & -> & Hcs & Hevs).
  { simpl. apply lookup_insert_eq. }
  { lia. }
  exists cs, (EvOpen path (next_fd st) :: evs).
  split; [|split; [done|by constructor]].
  f_equal. cbn [opened add_log handles next_fd gens next_gen log].
  apply state_eq; [by rewrite delete_insert_eq|done|by rewrite <- app_assoc].
Qed.

Lemma drain_fresh_fault fl j :
  fs env !! path = Some fl -> readable fl = true ->
  fault_at fl = Some j -> j < length (content fl) ->
  exists ns,
    drain g env st =
      (Raise IOError,
       mkState (delete (next_fd st) (handles st)) (S (next_fd st))
         (<[g := Finished]> (gens st)) (next_gen st)
         (log st ++ EvOpen path (next_fd st)
            :: (EvRead (next_fd st) <$> ns)
            ++ [EvReadFailed (next_fd st); EvClose (next_fd st)])).
Proof.
  intros Hfs Hr Hf Hj. unfold drain, remaining. rewrite Hg, Hfs.
  rewrite (async_for_created _ _ _ _ _ _ Hg Hfs Hr).
  destruct (loop_at_read_fault env g path (next_fd st) fl Hfs j Hf Hj
              (S (length (content fl))) (opened path st) 0)
    as (ns & ->).
  { simpl. apply lookup_insert_eq. }
  { lia. }
  { lia. }
  exists ns.
  f_equal. cbn [opened add_log handles next_fd gens next_gen log].
  apply state_eq; [by rewrite delete_insert_eq|done|by rewrite <- app_assoc].
Qed.

Lemma drain_fresh_missing :
  (fs env !! path = None \/
   exists fl, fs env !! path = Some fl /\ readable fl = false) ->
  drain g env st =
    (Raise FileNotFoundError,
     mkState (handles st) (next_fd st) (<[g := Finished]> (gens st))
       (next_gen st) (log st ++ [EvOpenFailed path])).
Proof.
  intros Hfs. unfold drain. simpl. unfold bind.
  by rewrite (anext_open_fails _ _ _ _ Hg Hfs).
Qed.
End Draining.

(** ** The chunked file reader: results *)

Lemma Chunks_total n l cs :
  Chunks n l cs -> sum_list_with length cs = length l.
Proof.
  induction 1 as [|l cs _ _ IH]; simpl; [done|].
  rewrite IH, length_take, length_drop. lia.
Qed.

Lemma read_all_unfold path env st :
  read_all path env st = drain (next_gen st) env (snd (file_sender path env st))
  /\ gens (snd (file_sender path env st)) !! next_gen st = Some (Created path).
Proof. split; [done|]. simpl. apply lookup_insert_eq. Qed.

Lemma read_all_ok env st path fl :
  healthy env path fl ->
  exists cs st',
    read_all path env st = (Ok cs, st')
    /\ Chunks chunk_size (content fl) cs
    /\ gens st' !! next_gen st = Some Finished
    /\ handles st' = delete (next_fd st) (handles st).
Proof.
  intros Hfl. destruct (read_all_unfold path env st) as [-> Hg].
  destruct (drain_fresh_ok _ _ _ _ Hg fl Hfl) as (cs & evs & -> & Hcs & _).
  eexists cs, _. split; [done|]. split; [done|].
  simpl. split; [apply lookup_insert_eq|done].
Qed.

(** C1. Reading a file of N bytes through [file_sender] until the end of
    the stream gives chunks whose lengths add up to N, all of 65536 bytes
    except possibly the last, and whose concatenation is the file. *)
Theorem file_sender_chunks env st path fl :
  healthy env path fl ->
  exists cs st',
    read_all path env st = (Ok cs, st')
    /\ gens st' !! next_gen st = Some Finished
    /\ sum_list_with length cs = length (content fl)
    /\ (forall i c, cs !! i = Some c -> S i < length cs ->
          Z.of_nat (length c) = 65536%Z)
    /\ concat cs = content fl.
Proof.
  intros Hfl.
  destruct (read_all_ok env st path fl Hfl) as (cs & st' & Hrun & Hcs & Hg & _).
  exists cs, st'. repeat split; try done.
  - by apply (Chunks_total chunk_size).
  - intros i c Hi Hlt. rewrite <- chunk_size_Z. f_equal.
    by apply (Chunks_full _ _ _ Hcs i).
  - by apply (Chunks_concat chunk_size).
Qed.

Lemma demo_healthy data up r :
  healthy (demo_env (png data) up r) file_name (File data true None).
Proof. split; [apply lookup_singleton_eq|done]. Qed.

Lemma file_sender_chunks_witness :
  exists cs st',
    read_all file_name (demo_env (png three_bytes) true created) init
      = (Ok cs, st')
    /\ gens st' !! 0 = Some Finished
    /\ sum_list_with length cs = 3
    /\ (forall i c, cs !! i = Some c -> S i < length cs ->
          Z.of_nat (length c) = 65536%Z)
    /\ concat cs = three_bytes.
Proof.
  exact (file_sender_chunks (demo_env (png three_bytes) true created) init
           file_name (File three_bytes true None) (demo_healthy _ _ _)).
Defined.

(** The 200000 bytes of the end-to-end scenario come in four chunks. *)
Example scenario_chunks :
  match fst (read_all file_name (demo_env (png scenario_bytes) true created)
               init) with
  | Ok cs => (fun c => Z.of_nat (length c)) <$> cs
  | _ => []
  end = [65536; 65536; 65536; 3392]%Z.
Proof. by vm_compute. Qed.

(** C5. A file of 0 bytes gives the end of the stream at the first request,
    with no chunk delivered; in general, in every world, a read that
    returns no bytes, at line 15 or at line 18, ends the stream. *)
Theorem empty_file_ends_at_once :
  (forall env st path fl,
      fs env !! path = Some fl -> readable fl = true -> content fl = [] ->
      let g := next_gen st in
      let st0 := snd (file_sender path env st) in
      fst (anext g env st0) = Ok None
      /\ gens (snd (anext g env st0)) !! g = Some Finished
      /\ fst (read_all path env st) = Ok [])
  /\ (forall env st1 g p f,
        fst (aio_read f chunk_size env st1) = Ok [] ->
        fst (read_chunk g p f env st1) = Ok None
        /\ gens (snd (read_chunk g p f env st1)) !! g = Some Finished)
  /\ (forall env st1 g p f,
        gens st1 !! g = Some (Suspended p f) ->
        fst (aio_read f chunk_size env st1) = Ok [] ->
        fst (anext g env st1) = Ok None
        /\ gens (snd (anext g env st1)) !! g = Some Finished).
Proof.
  assert (Hread : forall env st1 g p f,
             fst (aio_read f chunk_size env st1) = Ok [] ->
             fst (read_chunk g p f env st1) = Ok None
             /\ gens (snd (read_chunk g p f env st1)) !! g = Some Finished).
  { intros env st1 g p f. run_monad.
    destruct (handles st1 !! f) as [h|]; simpl; [|done].
    destruct (fs env !! h_path h) as [fl'|]; simpl; [|done].
    destruct (faulty _ _ _); simpl; [done|].
    intros [= ->]. simpl. split; [done|apply lookup_insert_eq]. }
  split; [|split; [exact Hread|]].
  - intros env st path fl Hfs Hr Hc.
    destruct (read_all_unfold path env st) as [Hall Hg].
    cbv zeta.
    assert (Hopen : handles (opened path (snd (file_sender path env st)))
                      !! next_fd st = Some (Handle path 0)).
    { simpl. apply lookup_insert_eq. }
    assert (Hnext : anext (next_gen st) env (snd (file_sender path env st)) = _)
      by exact (eq_trans (anext_created _ _ _ _ _ Hg Hfs Hr)
                  (read_chunk_eof _ _ _ _ _ _ _ _ Hopen Hfs
                     (eq_trans (f_equal (drop 0) Hc) eq_refl))).
    rewrite Hnext. split; [done|]. split; [simpl; apply lookup_insert_eq|].
    rewrite Hall. unfold drain, async_for, bind. by rewrite Hnext.
  - intros env st1 g p f Hg. rewrite (anext_suspended _ _ _ _ _ Hg).
    apply Hread.
Qed.

Lemma empty_file_ends_at_once_witness :
  (fst (anext 0 (demo_env (png []) true created)
          (snd (file_sender file_name (demo_env (png []) true created) init)))
     = Ok None
   /\ fst (read_all file_name (demo_env (png []) true created) init) = Ok [])
  /\ (let env := demo_env (png three_bytes) true created in
      let st1 := exec_ops env 0 [OpNext]
                   (snd (file_sender file_name env init)) in
      fst (anext 0 env st1) = Ok None
      /\ gens (snd (anext 0 env st1)) !! 0 = Some Finished).
Proof.
  split.
  - destruct (proj1 empty_file_ends_at_once
                (demo_env (png []) true created) init
                file_name (File [] true None)) as (H1 & _ & H2).
    + apply lookup_singleton_eq.
    + reflexivity.
    + reflexivity.
    + exact (conj H1 H2).
  - apply (proj2 (proj2 empty_file_ends_at_once)
             (demo_env (png three_bytes) true created) _ 0 file_name 0).
    + by vm_compute.
    + by vm_compute.
Defined.

(** C10. No chunk that [file_sender] yields is empty; a file of k * 65536
    bytes (k positive) is delivered as exactly k chunks of 65536 bytes, with
    no empty chunk at the end. *)
Theorem chunks_never_empty :
  (forall env st g c st', anext g env st = (Ok (Some c), st') -> c <> [])
  /\ (forall env st path fl k,
        healthy env path fl ->
        (0 < k)%Z ->
        Z.of_nat (length (content fl)) = (k * 65536)%Z ->
        exists cs st',
          read_all path env st = (Ok cs, st')
          /\ Z.of_nat (length cs) = k
          /\ Forall (fun c => Z.of_nat (length c) = 65536%Z) cs).
Proof.
  split.
  - intros env st g c st' Hrun.
    pose proof (anext_progress env st g) as H. rewrite Hrun in H. tauto.
  - intros env st path fl k Hfl Hk Hsize.
    destruct (read_all_ok env st path fl Hfl) as (cs & st' & Hrun & Hcs & _).
    exists cs, st'. split; [done|].
    destruct (Chunks_multiple _ _ _ chunk_size_pos Hcs (Z.to_nat k))
      as [Hlen Hall].
    { pose proof chunk_size_Z. nia. }
    split; [lia|].
    eapply Forall_impl; [exact Hall|]. simpl. intros c ->. apply chunk_size_Z.
Qed.

Lemma chunks_never_empty_witness :
  exists cs st',
    read_all file_name (demo_env (png one_chunk) true created) init
      = (Ok cs, st')
    /\ Z.of_nat (length cs) = 1%Z
    /\ Forall (fun c => Z.of_nat (length c) = 65536%Z) cs.
Proof.
  destruct chunks_never_empty as [_ H].
  apply (H (demo_env (png one_chunk) true created) init file_name
           (File one_chunk true None) 1%Z).
  - apply demo_healthy.
  - lia.
  - by vm_compute.
Defined.

(** ** The file object of a generator *)

Lemma read_chunk_holds base env st g p f pos :
  (forall f', next_fd st <= f' -> base !! f' = None) ->
  base !! f = None ->
  handles st = <[f := Handle p pos]> base ->
  holds_only base g (snd (read_chunk g p f env st))
  /\ ended_unless_yield g (read_chunk g p f env st).
Proof.
  intros Hfresh Hb Hh.
  assert (Hf : handles st !! f = Some (Handle p pos))
    by (rewrite Hh; apply lookup_insert_eq).
  unfold holds_only, ended_unless_yield. run_monad. rewrite Hf. simpl.
  destruct (fs env !! p) as [fl|]; simpl.
  - destruct (faulty _ _ _); simpl.
    + rewrite lookup_insert_eq, Hh, delete_insert_eq, delete_id by done. done.
    + destruct (take chunk_size (drop pos (content fl))) as [|b c]; simpl.
      * rewrite lookup_insert_eq, Hh, insert_insert_eq, delete_insert_eq,
          delete_id by done. done.
      * rewrite lookup_insert_eq, Hh, insert_insert_eq. eauto.
  - rewrite lookup_insert_eq, Hh, delete_insert_eq, delete_id by done. done.
Qed.

Lemma anext_holds base env st g :
  holds_only base g st ->
  holds_only base g (snd (anext g env st))
  /\ ended_unless_yield g (anext g env st).
Proof.
  intros [Hfresh Hg].
  destruct (gens st !! g) as [[p|p f|]|] eqn:Hgen; [| | |done].
  - assert (Hfail :
      (fs env !! p = None \/
       exists fl, fs env !! p = Some fl /\ readable fl = false) ->
      holds_only base g (snd (anext g env st))
      /\ ended_unless_yield g (anext g env st)).
    { intros Hfs. rewrite (anext_open_fails _ _ _ _ Hgen Hfs).
      unfold holds_only, ended_unless_yield. simpl.
      by rewrite lookup_insert_eq. }
    destruct (fs env !! p) as [fl|] eqn:Hfs; [|by apply Hfail; left].
    destruct (readable fl) eqn:Hr; [|apply Hfail; right; eauto].
    rewrite (anext_created _ _ _ _ _ Hgen Hfs Hr).
    apply (read_chunk_holds base env _ g p (next_fd st) 0).
    + intros f' Hf'. simpl in Hf'. apply Hfresh. lia.
    + by apply Hfresh.
    + simpl. by rewrite Hg.
  - rewrite (anext_suspended _ _ _ _ _ Hgen).
    destruct Hg as (Hb & pos & Hh).
    by apply (read_chunk_holds base env st g p f pos).
  - rewrite (anext_finished _ _ _ Hgen).
    unfold holds_only, ended_unless_yield. simpl. by rewrite Hgen.
Qed.

Lemma aclose_unfold env st g :
  aclose g env st =
    match gens st !! g with
    | Some (Created _) => set_gen g Finished env st
    | Some (Suspended _ f) => exit_with g f env st
    | Some Finished => (Ok tt, st)
    | None => (Raise ValueError, st)
    end.
Proof. unfold aclose, bind, get_gen. by destruct (gens st !! g) as [[]|]. Qed.

Lemma aclose_holds base env st g :
  holds_only base g st ->
  holds_only base g (snd (aclose g env st))
  /\ gens (snd (aclose g env st)) !! g = Some Finished.
Proof.
  intros [Hfresh Hg]. rewrite aclose_unfold. unfold holds_only.
  destruct (gens st !! g) as [[p|p f|]|] eqn:Hgen; [| | |done].
  - simpl. by rewrite lookup_insert_eq.
  - destruct Hg as (Hb & pos & Hh). run_monad.
    by rewrite lookup_insert_eq, Hh, delete_insert_eq, delete_id.
  - simpl. by rewrite Hgen.
Qed.

Lemma exec_ops_holds base env g ops :
  forall st, holds_only base g st -> holds_only base g (exec_ops env g ops st).
Proof.
  induction ops as [|op ops IH]; intros st Hst; [done|].
  simpl. apply IH. destruct op; simpl.
  - destruct (anext_holds base env st g Hst) as [H _].
    unfold bind, ret. by destruct (anext g env st) as [[]].
  - by apply aclose_holds.
Qed.

Lemma file_sender_holds env st path :
  fds_fresh st ->
  holds_only (handles st) (next_gen st) (snd (file_sender path env st)).
Proof.
  intros Hfresh. split; [done|]. simpl. by rewrite lookup_insert_eq.
Qed.

(** C7. Whatever a consumer has done to a [file_sender] stream so far, the
    file object is released on every way out of the stream: when the stream
    is exhausted, when a read (or the open) raises, and when the consumer
    gives the stream up ([aclose]). The file object is open only while the
    generator is suspended inside its [async with] block: not before the
    first step, and not after the end. *)
Theorem file_handle_released env st path ops :
  fds_fresh st ->
  let g := next_gen st in
  let st' := exec_ops env g ops (snd (file_sender path env st)) in
  match gens st' !! g with
  | Some (Suspended p f) =>
      handles st !! f = None
      /\ exists pos, handles st' = <[f := Handle p pos]> (handles st)
  | Some _ => handles st' = handles st
  | None => False
  end
  /\ (fst (anext g env st') = Ok None ->
      gens (snd (anext g env st')) !! g = Some Finished
      /\ handles (snd (anext g env st')) = handles st)
  /\ (forall e, fst (anext g env st') = Raise e ->
      gens (snd (anext g env st')) !! g = Some Finished
      /\ handles (snd (anext g env st')) = handles st)
  /\ (gens (snd (aclose g env st')) !! g = Some Finished
      /\ handles (snd (aclose g env st')) = handles st).
Proof.
  intros Hfresh g st'.
  assert (Hst' : holds_only (handles st) g st')
    by apply exec_ops_holds, file_sender_holds, Hfresh.
  assert (Hfin : forall st'', holds_only (handles st) g st'' ->
            gens st'' !! g = Some Finished -> handles st'' = handles st).
  { intros st'' [_ H] Hg. by rewrite Hg in H. }
  destruct (anext_holds _ env _ _ Hst') as [Hn He].
  destruct (aclose_holds _ env _ _ Hst') as [Hc Hcg].
  unfold ended_unless_yield in He.
  split; [exact (proj2 Hst')|]. split; [|split].
  - intros Hr. rewrite Hr in He. eauto.
  - intros e Hr. rewrite Hr in He. eauto.
  - eauto.
Qed.

(** After one step on a file of three bytes the generator waits inside the
    block and holds the file; giving it up there closes the file. *)
Example held_while_suspended :
  let env := demo_env (png three_bytes) true created in
  let st' := exec_ops env 0 [OpNext] (snd (file_sender file_name env init)) in
  gens st' !! 0 = Some (Suspended file_name 0)
  /\ handles st' = {[ 0 := Handle file_name 3 ]}
  /\ handles (snd (aclose 0 env st')) = ∅.
Proof. by vm_compute. Qed.

Lemma init_fresh : fds_fresh init.
Proof. intros f _. apply lookup_empty. Qed.

Lemma file_handle_released_witness :
  let env := demo_env (png three_bytes) true created in
  let st' := exec_ops env 0 [OpNext] (snd (file_sender file_name env init)) in
  gens (snd (aclose 0 env st')) !! 0 = Some Finished
  /\ handles (snd (aclose 0 env st')) = ∅.
Proof.
  exact (proj2 (proj2 (proj2
    (file_handle_released (demo_env (png three_bytes) true created) init
       file_name [OpNext] init_fresh)))).
Defined.

(** ** The request *)

Lemma trace_app {A} (m : M A) env st evs :
  log (snd (m env st)) = log st ++ evs -> trace m env st = evs.
Proof. intros H. unfold trace. rewrite H. apply drop_app_length. Qed.

Lemma build_body_cons quote fld rest env st :
  build_body quote (fld :: rest) env st =
    match payload (fld_value fld) env st with
    | (Ok chunks, st1) =>
        match build_body quote rest env st1 with
        | (Ok parts, st2) =>
            (Ok (Part (content_disposition quote fld) chunks :: parts), st2)
        | (Raise e, st2) => (Raise e, st2)
        | (OutOfFuel, st2) => (OutOfFuel, st2)
        end
    | (Raise e, st1) => (Raise e, st1)
    | (OutOfFuel, st1) => (OutOfFuel, st1)
    end.
Proof.
  simpl. unfold bind, ret.
  destruct (payload (fld_value fld) env st) as [[chunks| |] st1]; [|done..].
  by destruct (build_body quote rest env st1) as [[parts| |] st2].
Qed.

(** The parts come out one per field, with the dispositions of the fields,
    in the order of the fields. *)
Lemma build_body_dispositions quote flds :
  forall env st body st',
    build_body quote flds env st = (Ok body, st') ->
    part_disposition <$> body = content_disposition quote <$> flds.
Proof.
  induction flds as [|fld flds IH]; intros env st body st'.
  - by intros [= <- _].
  - rewrite build_body_cons.
    destruct (payload (fld_value fld) env st) as [[chunks| |] st1]; [|done..].
    destruct (build_body quote flds env st1) as [[parts| |] st2] eqn:Hrest;
      [|done..].
    intros [= <- _]. simpl. f_equal. by apply (IH env st1 parts st2).
Qed.

Lemma report_run resp env st :
  report resp env st =
    (if (201 =? resp_status resp)%Z then Ok tt else Raise AssertionError,
     mkState (handles st) (next_fd st) (gens st) (next_gen st)
       (log st ++ [EvPrint (resp_text resp);
                   EvAssert (201 =? resp_status resp)%Z])).
Proof.
  unfold report, print, assert_status. cbv zeta.
  generalize (201 =? resp_status resp)%Z as holds. intros holds.
  unfold bind, emit, add_log. destruct holds; simpl; by rewrite <- app_assoc.
Qed.

Lemma req_unfold env st :
  req env st =
    bind (post url (reference_form (next_gen st))) report env (registered st).
Proof. reflexivity. Qed.

(** [req] as a function of what reading the body gives and of what the
    network does. *)
Lemma req_run env st :
  req env st =
    if connect_ok env then
      match build_body false (reference_fields (next_gen st)) env
              (registered st) with
      | (Ok body, st') =>
          match serve env url body with
          | Answered resp =>
              (if (201 =? resp_status resp)%Z then Ok tt
               else Raise AssertionError,
               mkState (handles st') (next_fd st') (gens st') (next_gen st')
                 (log st' ++ [EvPost url body; EvPrint (resp_text resp);
                              EvAssert (201 =? resp_status resp)%Z]))
          | ConnectionLost =>
              (Raise ClientConnectionError, add_log (EvPost url body) st')
          end
      | (Raise e, st') => (Raise e, st')
      | (OutOfFuel, st') => (OutOfFuel, st')
      end
    else (Raise ClientConnectionError, registered st).
Proof.
  rewrite req_unfold. unfold bind at 1, post. simpl quote_fields. simpl fields.
  destruct (connect_ok env); [|done].
  unfold bind at 1.
  destruct (build_body _ _ _ _) as [[body| |] st']; [|done..].
  unfold bind at 1, emit.
  destruct (serve env url body) as [resp|]; [|done].
  unfold ret. rewrite report_run. simpl. by rewrite <- app_assoc.
Qed.

Lemma req_has_shape env st :
  req_shape env (fst (req env st)) (trace req env st)
  /\ log (snd (req env st)) = log st ++ trace req env st.
Proof.
  assert (H : exists evs, log (snd (req env st)) = log st ++ evs
                          /\ req_shape env (fst (req env st)) evs).
  { rewrite req_run. destruct (connect_ok env).
    - destruct (files_only_build_body false (reference_fields (next_gen st))
                  env (registered st)) as (evs & Hlog & Hevs).
      pose proof (build_body_terminates false (reference_fields (next_gen st))
                    env (registered st)) as Hterm.
      destruct (build_body _ _ _ _) as [[body| |] st']; simpl in *; [| |done].
      + destruct (serve env url body) as [resp|] eqn:Hserve; simpl.
        * eexists. rewrite Hlog, <- app_assoc. split; [done|].
          by apply req_answered.
        * eexists. rewrite Hlog, <- app_assoc. split; [done|].
          by apply req_lost.
      + exists evs. split; [done|by constructor].
    - exists []. simpl. rewrite app_nil_r. split; [done|by constructor]. }
  destruct H as (evs & Hlog & Hshape).
  rewrite (trace_app _ _ _ _ Hlog). done.
Qed.

Section Reference.
Context (env : Env) (st : State) (fl : file).
Hypothesis Hfl : healthy env file_name fl.

(** With the file in good order the three streams deliver the same
    chunks, each from its own file object. *)
Lemma build_reference_ok :
  exists cs st',
    build_body false (reference_fields (next_gen st)) env (registered st)
      = (Ok (reference_body cs), st')
    /\ Chunks chunk_size (content fl) cs
    /\ handles st' = delete (S (S (next_fd st)))
                       (delete (S (next_fd st))
                          (delete (next_fd st) (handles st))).
Proof.
  unfold reference_fields.
  destruct (drain_fresh_ok env (registered st) (next_gen st) file_name)
    with (fl := fl) as (cs1 & evs1 & Hd1 & Hcs1 & _); [|done|].
  { simpl. rewrite !lookup_insert_ne by lia. apply lookup_insert_eq. }
  rewrite build_body_cons. cbn [payload fld_value]. rewrite Hd1.
  match type of Hd1 with _ = (_, ?s) =>
    destruct (drain_fresh_ok env s (S (next_gen st)) file_name)
      with (fl := fl) as (cs2 & evs2 & Hd2 & Hcs2 & _); [|done|]
  end.
  { simpl. rewrite !lookup_insert_ne by lia. apply lookup_insert_eq. }
  rewrite build_body_cons. cbn [payload fld_value]. rewrite Hd2.
  match type of Hd2 with _ = (_, ?s) =>
    destruct (drain_fresh_ok env s (S (S (next_gen st))) file_name)
      with (fl := fl) as (cs3 & evs3 & Hd3 & Hcs3 & _); [|done|]
  end.
  { simpl. rewrite !lookup_insert_ne by lia. apply lookup_insert_eq. }
  rewrite build_body_cons. cbn [payload fld_value]. rewrite Hd3.
  rewrite (Chunks_fun _ _ _ _ Hcs2 Hcs1), (Chunks_fun _ _ _ _ Hcs3 Hcs1).
  eexists cs1, _. split; [reflexivity|]. split; [done|]. reflexivity.
Qed.

Lemma req_reference_ok :
  connect_ok env = true ->
  exists cs evs,
    Chunks chunk_size (content fl) cs
    /\ Forall file_event evs
    /\ req_shape env (fst (req env st)) (trace req env st)
    /\ exists tail,
         trace req env st = evs ++ EvPost url (reference_body cs) :: tail.
Proof.
  intros Hup.
  destruct build_reference_ok as (cs & st' & Hbody & Hcs & _).
  destruct (files_only_build_body false (reference_fields (next_gen st))
              env (registered st)) as (evs & Hlog & Hevs).
  rewrite Hbody in Hlog. simpl in Hlog.
  exists cs, evs. split; [done|]. split; [done|].
  split; [apply req_has_shape|].
  unfold trace. rewrite req_run, Hup, Hbody.
  destruct (serve env url (reference_body cs)) as [resp|]; simpl;
    rewrite Hlog, <- app_assoc, drop_app_length; eauto.
Qed.
End Reference.

(** ** The request: results *)

Lemma posts_app l k : posts (l ++ k) = posts l + posts k.
Proof. unfold posts. by rewrite List.filter_app, length_app. Qed.

Lemma posts_files evs : Forall file_event evs -> posts evs = 0.
Proof.
  induction 1 as [|e evs He _ IH]; [done|].
  change (posts (e :: evs)) with (posts ([e] ++ evs)).
  rewrite posts_app, IH. by destruct e.
Qed.

Lemma not_posted_in_files evs u body :
  Forall file_event evs -> EvPost u body ∈ evs -> False.
Proof.
  intros Hevs Hin. rewrite Forall_forall in Hevs. exact (Hevs _ Hin).
Qed.

(** A body that was posted is the one built from the form of lines 23-29,
    and the run went on from there. *)
Lemma req_posted env st body :
  EvPost url body ∈ trace req env st ->
  exists evs st',
    build_body false (reference_fields (next_gen st)) env (registered st)
      = (Ok body, st')
    /\ Forall file_event evs
    /\ match serve env url body with
       | Answered resp =>
           fst (req env st) =
             (if (201 =? resp_status resp)%Z then Ok tt
              else Raise AssertionError)
           /\ trace req env st =
                evs ++ [EvPost url body; EvPrint (resp_text resp);
                        EvAssert (201 =? resp_status resp)%Z]
       | ConnectionLost =>
           fst (req env st) = Raise ClientConnectionError
           /\ trace req env st = evs ++ [EvPost url body]
       end.
Proof.
  unfold trace. rewrite req_run.
  destruct (connect_ok env).
  - destruct (files_only_build_body false (reference_fields (next_gen st))
                env (registered st)) as (evs & Hlog & Hevs).
    change (log (registered st)) with (log st) in Hlog.
    destruct (build_body _ _ _ _) as [[body'| |] st'] eqn:Hbody;
      cbn [fst snd log add_log] in *.
    + assert (Hcase : EvPost url body ∈ evs ++ [EvPost url body'] ->
                      body = body').
      { rewrite elem_of_app, list_elem_of_singleton.
        intros [Hin|[= ->]]; [|done]. by destruct (not_posted_in_files _ _ _ Hevs Hin). }
      destruct (serve env url body') as [resp|] eqn:Hserve; simpl;
        rewrite Hlog, <- app_assoc, drop_app_length.
      * intros Hin. assert (body = body') as ->.
        { apply Hcase. rewrite elem_of_app in Hin |- *.
          destruct Hin as [Hin|Hin]; [by left|right].
          rewrite !elem_of_cons in Hin. rewrite list_elem_of_singleton.
          destruct Hin as [Hin|[Hin|[Hin|Hin]]]; try done.
          by apply elem_of_nil in Hin. }
        exists evs, st'. rewrite Hserve. done.
      * intros Hin. assert (body = body') as -> by by apply Hcase.
        exists evs, st'. rewrite Hserve. done.
    + rewrite Hlog, drop_app_length. intros Hin.
      by destruct (not_posted_in_files _ _ _ Hevs Hin).
    + rewrite Hlog, drop_app_length. intros Hin.
      by destruct (not_posted_in_files _ _ _ Hevs Hin).
  - simpl. rewrite drop_all. intros Hin. by apply elem_of_nil in Hin.
Qed.

Lemma fields_add_all flds :
  forall data, fields (add_all data flds) = fields data ++ flds.
Proof.
  induction flds as [|fld flds IH]; intros data; simpl.
  - by rewrite app_nil_r.
  - rewrite IH. simpl. rewrite <- app_assoc. by destruct fld.
Qed.

(** C2. The body has one part per field, and the [Content-Disposition]
    sections come in the order in which the fields were added. [req] posts
    a body (when the server can be reached and the file reads well) whose
    six sections are, in this order, files[]/image1.png, files[]/image2.png,
    files[]/image3.png, Hey, Hi[One], Hi[Two]; no run of [req] posts a body
    with other sections or another order. *)
Theorem field_order_preserved :
  (forall env st quote flds body st',
      build_body quote (fields (add_all (new_form quote) flds)) env st
        = (Ok body, st') ->
      length body = length flds
      /\ part_disposition <$> body = content_disposition quote <$> flds)
  /\ (forall env st fl,
        connect_ok env = true ->
        healthy env file_name fl ->
        exists evs body tail,
          trace req env st = evs ++ EvPost url body :: tail
          /\ Forall file_event evs
          /\ length body = 6
          /\ part_disposition <$> body = reference_dispositions)
  /\ (forall env st body,
        EvPost url body ∈ trace req env st ->
        part_disposition <$> body = reference_dispositions).
Proof.
  split; [|split].
  - intros env st quote flds body st'. rewrite fields_add_all. simpl.
    intros Hbody. apply build_body_dispositions in Hbody.
    split; [|done].
    apply (f_equal length) in Hbody. by rewrite !length_fmap in Hbody.
  - intros env st fl Hup Hfl.
    destruct (req_reference_ok env st fl Hfl Hup)
      as (cs & evs & _ & Hevs & _ & tail & Htrace).
    by exists evs, (reference_body cs), tail.
  - intros env st body Hin.
    destruct (req_posted env st body Hin) as (_ & st' & Hbody & _).
    by apply build_body_dispositions in Hbody.
Qed.

Lemma reference_posted :
  EvPost url (reference_body [three_bytes])
    ∈ trace req (demo_env (png three_bytes) true created) init.
Proof. vm_compute. repeat constructor. Qed.

Lemma field_order_preserved_witness :
  exists evs body tail,
    trace req (demo_env (png three_bytes) true created) init
      = evs ++ EvPost url body :: tail
    /\ Forall file_event evs
    /\ length body = 6
    /\ part_disposition <$> body = reference_dispositions.
Proof.
  exact (proj1 (proj2 field_order_preserved)
           (demo_env (png three_bytes) true created) init
           (File three_bytes true None) eq_refl (demo_healthy _ _ _)).
Defined.

(** C3. The status check of line 34 succeeds exactly when the status is the
    expected one and raises [AssertionError] otherwise; a run of [req]
    whose answer has another status than 201 ends there: one request was
    posted, the failed check is the last thing that happened. *)
Theorem status_assertion :
  (forall expected resp env st,
      fst (assert_status expected resp env st) = Ok tt
      <-> resp_status resp = expected)
  /\ (forall expected resp env st,
        resp_status resp <> expected ->
        fst (assert_status expected resp env st) = Raise AssertionError)
  /\ (forall env st body resp,
        EvPost url body ∈ trace req env st ->
        serve env url body = Answered resp ->
        (resp_status resp = 201%Z -> fst (req env st) = Ok tt)
        /\ (resp_status resp <> 201%Z ->
            fst (req env st) = Raise AssertionError
            /\ posts (trace req env st) = 1
            /\ last (trace req env st) = Some (EvAssert false))).
Proof.
  assert (Hassert : forall expected resp env st,
            fst (assert_status expected resp env st) =
              if (expected =? resp_status resp)%Z then Ok tt
              else Raise AssertionError).
  { intros. unfold assert_status. cbv zeta.
    generalize (expected =? resp_status resp)%Z as holds. by intros []. }
  split; [|split].
  - intros expected resp env st. rewrite Hassert.
    destruct (Z.eqb_spec expected (resp_status resp)); split; done.
  - intros expected resp env st Hne. rewrite Hassert.
    by destruct (Z.eqb_spec expected (resp_status resp)).
  - intros env st body resp Hin Hserve.
    destruct (req_posted env st body Hin) as (evs & st' & _ & Hevs & Hrun).
    rewrite Hserve in Hrun. destruct Hrun as [-> ->].
    destruct (Z.eqb_spec 201 (resp_status resp)) as [Heq|Hne].
    + split; [done|]. by intros [].
    + split; [intros Heq; by destruct Hne|]. intros _. split; [done|].
      rewrite posts_app, (posts_files _ Hevs). split; [done|].
      by rewrite last_app.
Qed.

Lemma rejected_posted :
  EvPost url (reference_body [three_bytes])
    ∈ trace req (demo_env (png three_bytes) true rejected) init.
Proof. vm_compute. repeat constructor. Qed.

Lemma status_assertion_witness :
  fst (req (demo_env (png three_bytes) true rejected) init)
    = Raise AssertionError
  /\ posts (trace req (demo_env (png three_bytes) true rejected) init) = 1
  /\ last (trace req (demo_env (png three_bytes) true rejected) init)
       = Some (EvAssert false).
Proof.
  refine (proj2 (proj2 (proj2 status_assertion)
            (demo_env (png three_bytes) true rejected) init
            (reference_body [three_bytes]) (Response 400 "bad request")
            rejected_posted eq_refl) _).
  simpl. lia.
Defined.

(** In each of the three shapes a status check comes right after a print. *)
Lemma shape_assert env r tr :
  req_shape env r tr ->
  forall i holds,
    tr !! i = Some (EvAssert holds) ->
    exists text, 0 < i /\ tr !! (i - 1) = Some (EvPrint text).
Proof.
  intros Hshape i holds.
  assert (Hfile : forall evs, Forall file_event evs ->
            evs !! i = Some (EvAssert holds) -> False).
  { intros evs Hevs Hl. rewrite Forall_forall in Hevs.
    exact (Hevs _ (list_elem_of_lookup_2 _ _ _ Hl)). }
  destruct Hshape as [e evs Hevs|evs body Hevs _|evs body resp Hevs _];
    intros Hi.
  - by destruct (Hfile evs).
  - destruct (Nat.lt_ge_cases i (length evs)) as [Hlt|Hge].
    + rewrite lookup_app_l in Hi by done. by destruct (Hfile evs).
    + rewrite lookup_app_r in Hi by done.
      by destruct (i - length evs) as [|[|]].
  - destruct (Nat.lt_ge_cases i (length evs)) as [Hlt|Hge].
    + rewrite lookup_app_l in Hi by done. by destruct (Hfile evs).
    + rewrite lookup_app_r in Hi by done.
      destruct (i - length evs) as [|[|[|n]]] eqn:Hn; try done.
      exists (resp_text resp). split; [lia|].
      rewrite lookup_app_r by lia.
      by replace (i - 1 - length evs) with 1 by lia.
Qed.

(** C9. In a run that gets an answer, the text of the answer is printed and
    only then is the status checked, also when the check fails; in no run is
    the status checked before the text was printed. *)
Theorem body_printed_before_assert env st :
  (forall body resp,
      EvPost url body ∈ trace req env st ->
      serve env url body = Answered resp ->
      exists evs,
        Forall file_event evs
        /\ trace req env st =
             evs ++ [EvPost url body; EvPrint (resp_text resp);
                     EvAssert (201 =? resp_status resp)%Z])
  /\ (forall i holds,
        trace req env st !! i = Some (EvAssert holds) ->
        exists text,
          0 < i /\ trace req env st !! (i - 1) = Some (EvPrint text)).
Proof.
  split.
  - intros body resp Hin Hserve.
    destruct (req_posted env st body Hin) as (evs & st' & _ & Hevs & Hrun).
    rewrite Hserve in Hrun. destruct Hrun as [_ ->]. eauto.
  - apply (shape_assert env (fst (req env st))), req_has_shape.
Qed.

Lemma body_printed_before_assert_witness :
  exists evs,
    Forall file_event evs
    /\ trace req (demo_env (png three_bytes) true rejected) init =
         evs ++ [EvPost url (reference_body [three_bytes]);
                 EvPrint "bad request"; EvAssert false].
Proof.
  exact (proj1 (body_printed_before_assert
                  (demo_env (png three_bytes) true rejected) init)
           (reference_body [three_bytes]) (Response 400 "bad request")
           rejected_posted eq_refl).
Defined.

(** C6. A path that does not exist or is not readable makes the open fail
    with [FileNotFoundError], a damaged byte makes the read that reaches it
    fail with [IOError]; either error ends the stream and the request at
    once: nothing is opened or read a second time, nothing is posted. *)
Theorem file_access_error_aborts env st :
  (forall path,
      cannot_open env path ->
      fst (aio_open path env st) = Raise FileNotFoundError
      /\ fst (read_all path env st) = Raise FileNotFoundError
      /\ trace (read_all path) env st = [EvOpenFailed path]
      /\ handles (snd (read_all path env st)) = handles st)
  /\ (forall path fl j,
        fs env !! path = Some fl -> readable fl = true ->
        fault_at fl = Some j -> j < length (content fl) ->
        fst (read_all path env st) = Raise IOError
        /\ exists ns,
             trace (read_all path) env st =
               EvOpen path (next_fd st) :: (EvRead (next_fd st) <$> ns)
               ++ [EvReadFailed (next_fd st); EvClose (next_fd st)])
  /\ (connect_ok env = true ->
      cannot_open env file_name ->
      fst (req env st) = Raise FileNotFoundError
      /\ trace req env st = [EvOpenFailed file_name])
  /\ (forall fl j,
        connect_ok env = true ->
        fs env !! file_name = Some fl -> readable fl = true ->
        fault_at fl = Some j -> j < length (content fl) ->
        fst (req env st) = Raise IOError
        /\ exists ns,
             trace req env st =
               EvOpen file_name (next_fd st) :: (EvRead (next_fd st) <$> ns)
               ++ [EvReadFailed (next_fd st); EvClose (next_fd st)]).
Proof.
  assert (Hreg : gens (registered st) !! next_gen st
                 = Some (Created file_name)).
  { simpl. rewrite !lookup_insert_ne by lia. apply lookup_insert_eq. }
  split; [|split; [|split]].
  - intros path Hpath.
    destruct (read_all_unfold path env st) as [Hall Hg].
    unfold trace. rewrite Hall, (drain_fresh_missing _ _ _ _ Hg Hpath). simpl.
    rewrite drop_app_length. repeat split.
    unfold aio_open. by destruct Hpath as [->|(fl & -> & ->)].
  - intros path fl j Hfs Hr Hf Hj.
    destruct (read_all_unfold path env st) as [Hall Hg].
    destruct (drain_fresh_fault _ _ _ _ Hg fl j Hfs Hr Hf Hj) as (ns & Hd).
    unfold trace. rewrite Hall, Hd. simpl. rewrite drop_app_length. eauto.
  - intros Hup Hpath. unfold trace. rewrite req_run, Hup.
    unfold reference_fields. rewrite build_body_cons. cbn [payload fld_value].
    rewrite (drain_fresh_missing _ _ _ _ Hreg Hpath). simpl.
    by rewrite drop_app_length.
  - intros fl j Hup Hfs Hr Hf Hj. unfold trace. rewrite req_run, Hup.
    unfold reference_fields. rewrite build_body_cons. cbn [payload fld_value].
    destruct (drain_fresh_fault _ _ _ _ Hreg fl j Hfs Hr Hf Hj) as (ns & ->).
    simpl. rewrite drop_app_length. eauto.
Qed.

Lemma file_access_error_aborts_witness :
  (fst (req (demo_env None true created) init) = Raise FileNotFoundError
   /\ trace req (demo_env None true created) init = [EvOpenFailed file_name])
  /\ (fst (req (demo_env damaged true created) init) = Raise IOError
      /\ exists ns,
           trace req (demo_env damaged true created) init =
             EvOpen file_name 0 :: (EvRead 0 <$> ns)
             ++ [EvReadFailed 0; EvClose 0]).
Proof.
  split.
  - apply (proj1 (proj2 (proj2
             (file_access_error_aborts (demo_env None true created) init)))).
    + reflexivity.
    + left. reflexivity.
  - apply (proj2 (proj2 (proj2
             (file_access_error_aborts (demo_env damaged true created) init)))
             (File three_bytes true (Some 1)) 1).
    + reflexivity.
    + reflexivity.
    + reflexivity.
    + reflexivity.
    + simpl. lia.
Defined.

(** C4. Three fields added under one name stay three fields, and with
    distinct file names they give three distinct parts; in the body that
    [req] posts, the three parts named files[] each carry the whole file,
    read through a stream of their own. *)
Theorem repeated_field_names :
  (forall data name v1 v2 v3 f1 f2 f3,
      fields (add_field (add_field (add_field data name v1 f1) name v2 f2)
                name v3 f3)
      = fields data ++ [Field name v1 f1; Field name v2 f2; Field name v3 f3])
  /\ (forall env st name v1 v2 v3 f1 f2 f3 body st',
        f1 <> f2 -> f1 <> f3 -> f2 <> f3 ->
        build_body false
          (fields (add_field (add_field (add_field (new_form false)
                     name v1 (Some f1)) name v2 (Some f2)) name v3 (Some f3)))
          env st = (Ok body, st') ->
        exists p1 p2 p3,
          body = [p1; p2; p3]
          /\ part_disposition p1 = Disposition name (Some f1)
          /\ part_disposition p2 = Disposition name (Some f2)
          /\ part_disposition p3 = Disposition name (Some f3)
          /\ p1 <> p2 /\ p1 <> p3 /\ p2 <> p3)
  /\ (forall env st fl,
        connect_ok env = true ->
        healthy env file_name fl ->
        exists evs body tail cs,
          trace req env st = evs ++ EvPost url body :: tail
          /\ Forall file_event evs
          /\ parts_named "files[]" body =
               [ Part (Disposition "files[]" (Some "image1.png")) cs;
                 Part (Disposition "files[]" (Some "image2.png")) cs;
                 Part (Disposition "files[]" (Some "image3.png")) cs ]
          /\ concat cs = content fl).
Proof.
  split; [|split].
  - intros. simpl. by rewrite <- !app_assoc.
  - intros env st name v1 v2 v3 f1 f2 f3 body st' H12 H13 H23 Hbody.
    apply build_body_dispositions in Hbody.
    unfold content_disposition, header_param in Hbody. simpl in Hbody.
    destruct body as [|p1 [|p2 [|p3 [|p4 body]]]]; try done.
    injection Hbody as H1 H2 H3.
    exists p1, p2, p3. repeat split; try done; intros ->; congruence.
  - intros env st fl Hup Hfl.
    destruct (req_reference_ok env st fl Hfl Hup)
      as (cs & evs & Hcs & Hevs & _ & tail & Htrace).
    exists evs, (reference_body cs), tail, cs.
    repeat split; try done. by apply (Chunks_concat chunk_size).
Qed.

Lemma repeated_field_names_witness :
  exists evs body tail cs,
    trace req (demo_env (png three_bytes) true created) init
      = evs ++ EvPost url body :: tail
    /\ Forall file_event evs
    /\ parts_named "files[]" body =
         [ Part (Disposition "files[]" (Some "image1.png")) cs;
           Part (Disposition "files[]" (Some "image2.png")) cs;
           Part (Disposition "files[]" (Some "image3.png")) cs ]
    /\ concat cs = three_bytes.
Proof.
  apply (proj2 (proj2 repeated_field_names)
           (demo_env (png three_bytes) true created) init
           (File three_bytes true None)).
  - reflexivity.
  - apply demo_healthy.
Defined.

(** The same generator added twice would be read once: the second part
    finds it finished. [req] makes one generator per field. *)
Example shared_stream_read_once :
  let env := demo_env (png three_bytes) true created in
  let st0 := snd (file_sender file_name env init) in
  part_payload <$>
    match fst (build_body false
                 [Field "files[]" (Stream 0) (Some "image1.png");
                  Field "files[]" (Stream 0) (Some "image2.png")] env st0) with
    | Ok body => body
    | _ => []
    end
  = [[three_bytes]; []].
Proof. by vm_compute. Qed.







(** The two modes on a name with a double quote in it, and on the bracketed
    name of line 28, which a quoted-string holds as it is. *)
Example quoted_or_not :
  content_disposition false (Field quoted_name (Text "1") None)
    = Disposition quoted_name None
  /\ content_disposition true (Field quoted_name (Text "1") None)
       = Disposition
           (String "a" (String backslash (String dquote "b"))) None
  /\ content_disposition false (Field "Hi[One]" (Text "1") None)
       = Disposition "Hi[One]" None
  /\ content_disposition true (Field "Hi[One]" (Text "1") None)
       = Disposition "Hi[One]" None.
Proof. by vm_compute. Qed.

(** * Further properties of [file_sender] *)

(** ** How many chunks, how long, and which bytes *)

Lemma Chunks_count n l cs :
  0 < n -> Chunks n l cs -> length cs = Nat.div (length l + n - 1) n.
Proof.
  intros Hn. induction 1 as [|l cs Hl _ IH].
  - simpl. symmetry. apply Nat.div_small. lia.
  - assert (Hlen : 0 < length l) by (destruct l; [done|simpl; lia]).
    simpl. rewrite IH, length_drop.
    replace (length l + n - 1) with (length l - 1 + 1 * n) by lia.
    rewrite Nat.div_add by lia.
    destruct (Nat.le_gt_cases (length l) n) as [Hle|Hgt].
    + replace (length l - n + n - 1) with (n - 1) by lia.
      rewrite !Nat.div_small by lia. done.
    + replace (length l - n + n - 1) with (length l - 1) by lia. lia.
Qed.

Lemma Chunks_lookup n l cs :
  Chunks n l cs ->
  forall i c, cs !! i = Some c -> c = take n (drop (i * n) l).
Proof.
  induction 1 as [|l cs _ _ IH]; intros i c Hi; [done|].
  destruct i as [|i]; simpl in Hi.
  - by injection Hi as <-.
  - rewrite (IH i c Hi), drop_drop. done.
Qed.

Lemma Chunks_lookup_some n l cs :
  0 < n -> Chunks n l cs ->
  forall i, i * n < length l -> is_Some (cs !! i).
Proof.
  intros Hn. induction 1 as [|l cs _ _ IH]; intros i Hi; [simpl in Hi; lia|].
  destruct i as [|i]; simpl; [eauto|].
  apply IH. rewrite length_drop. simpl in Hi. lia.
Qed.

(** A file of N bytes is delivered in N / 65536 chunks, rounded up. *)
Theorem chunk_count env st path fl :
  healthy env path fl ->
  exists cs st',
    read_all path env st = (Ok cs, st')
    /\ Z.of_nat (length cs)
       = ((Z.of_nat (length (content fl)) + 65535) / 65536)%Z.
Proof.
  intros Hfl.
  destruct (read_all_ok env st path fl Hfl) as (cs & st' & Hrun & Hcs & _).
  exists cs, st'. split; [done|].
  rewrite (Chunks_count _ _ _ chunk_size_pos Hcs), Nat2Z.inj_div.
  pose proof chunk_size_Z. pose proof chunk_size_pos. f_equal; lia.
Qed.

Lemma chunk_count_witness :
  exists cs st',
    read_all file_name (demo_env (png scenario_bytes) true created) init
      = (Ok cs, st')
    /\ Z.of_nat (length cs) = 4%Z.
Proof.
  destruct (chunk_count (demo_env (png scenario_bytes) true created) init
              file_name (File scenario_bytes true None) (demo_healthy _ _ _))
    as (cs & st' & Hrun & Hlen).
  exists cs, st'. split; [exact Hrun|].
  rewrite Hlen. by vm_compute.
Defined.

Lemma read_chunk_bounded env st g p f :
  match read_chunk g p f env st with
  | (Ok (Some c), _) => length c <= chunk_size
  | _ => True
  end.
Proof.
  run_monad.
  destruct (handles st !! f) as [h|]; simpl; [|done].
  destruct (fs env !! h_path h) as [fl|]; simpl; [|done].
  destruct (faulty _ _ _); simpl; [done|].
  destruct (take chunk_size (drop (h_pos h) (content fl))) as [|b c] eqn:Hc;
    simpl; [done|].
  apply (f_equal length) in Hc. rewrite length_take in Hc.
  change (length (b :: c)) with (S (length c)) in Hc. lia.
Qed.

(** No step of the generator, in any state, yields more than 65536 bytes. *)
Theorem chunk_never_longer env st g c st' :
  anext g env st = (Ok (Some c), st') -> (Z.of_nat (length c) <= 65536)%Z.
Proof.
  intros Hrun. rewrite <- chunk_size_Z. apply inj_le.
  destruct (gens st !! g) as [[p|p f|]|] eqn:Hg.
  - destruct (fs env !! p) as [fl|] eqn:Hfs.
    + destruct (readable fl) eqn:Hr.
      * rewrite (anext_created _ _ _ _ _ Hg Hfs Hr) in Hrun.
        pose proof (read_chunk_bounded env (opened p st) g p (next_fd st)) as H.
        by rewrite Hrun in H.
      * rewrite (anext_open_fails _ _ _ _ Hg) in Hrun; [done|right; eauto].
    + rewrite (anext_open_fails _ _ _ _ Hg) in Hrun; [done|by left].
  - rewrite (anext_suspended _ _ _ _ _ Hg) in Hrun.
    pose proof (read_chunk_bounded env st g p f) as H. by rewrite Hrun in H.
  - by rewrite (anext_finished _ _ _ Hg) in Hrun.
  - unfold anext, bind, get_gen in Hrun. by rewrite Hg in Hrun.
Qed.

Lemma chunk_never_longer_witness :
  (Z.of_nat (length three_bytes) <= 65536)%Z.
Proof.
  apply (chunk_never_longer (demo_env (png three_bytes) true created)
           (snd (file_sender file_name
                   (demo_env (png three_bytes) true created) init))
           0 three_bytes
           (snd (anext 0 (demo_env (png three_bytes) true created)
                   (snd (file_sender file_name
                           (demo_env (png three_bytes) true created) init))))).
  by vm_compute.
Defined.

(** Chunk number i (from 0) is the slice of the file that starts at byte
    i * 65536 and is 65536 bytes long, or shorter at the end of the file;
    every such offset inside the file has its chunk: nothing is skipped and
    nothing comes twice. *)
Theorem chunk_is_slice env st path fl :
  healthy env path fl ->
  exists cs st',
    read_all path env st = (Ok cs, st')
    /\ (forall i c, cs !! i = Some c ->
          c = take chunk_size (drop (i * chunk_size) (content fl)))
    /\ (forall i, i * chunk_size < length (content fl) -> is_Some (cs !! i)).
Proof.
  intros Hfl.
  destruct (read_all_ok env st path fl Hfl) as (cs & st' & Hrun & Hcs & _).
  exists cs, st'. split; [done|]. split.
  - by apply Chunks_lookup.
  - apply Chunks_lookup_some; [apply chunk_size_pos|done].
Qed.

Lemma chunk_is_slice_witness :
  exists cs st',
    read_all file_name (demo_env (png three_bytes) true created) init
      = (Ok cs, st')
    /\ (forall i c, cs !! i = Some c ->
          c = take chunk_size (drop (i * chunk_size) three_bytes))
    /\ (forall i, i * chunk_size < 3 -> is_Some (cs !! i)).
Proof.
  exact (chunk_is_slice (demo_env (png three_bytes) true created) init
           file_name (File three_bytes true None) (demo_healthy _ _ _)).
Defined.

(** ** A stream that has ended *)

Lemma read_chunk_stepped env st g p f : stepped g (read_chunk g p f env st).
Proof.
  unfold stepped. run_monad.
  destruct (handles st !! f) as [h|]; simpl; [|apply lookup_insert_eq].
  destruct (fs env !! h_path h) as [fl|]; simpl; [|apply lookup_insert_eq].
  destruct (faulty _ _ _); simpl; [apply lookup_insert_eq|].
  destruct (take chunk_size (drop (h_pos h) (content fl))) as [|b c]; simpl.
  - apply lookup_insert_eq.
  - exists p, f. apply lookup_insert_eq.
Qed.

Lemma anext_stepped env st g :
  is_Some (gens st !! g) -> stepped g (anext g env st).
Proof.
  intros [s Hg]. destruct s as [p|p f|].
  - destruct (fs env !! p) as [fl|] eqn:Hfs.
    + destruct (readable fl) eqn:Hr.
      * rewrite (anext_created _ _ _ _ _ Hg Hfs Hr). apply read_chunk_stepped.
      * rewrite (anext_open_fails _ _ _ _ Hg); [|right; eauto].
        unfold stepped. simpl. apply lookup_insert_eq.
    + rewrite (anext_open_fails _ _ _ _ Hg); [|by left].
      unfold stepped. simpl. apply lookup_insert_eq.
  - rewrite (anext_suspended _ _ _ _ _ Hg). apply read_chunk_stepped.
  - by rewrite (anext_finished _ _ _ Hg).
Qed.

(** However the loop of [async for] is left, by exhaustion or by an
    exception, the generator is finished. *)
Lemma async_for_ended fuel :
  forall env st g,
    is_Some (gens st !! g) ->
    fst (async_for fuel g env st) <> OutOfFuel ->
    gens (snd (async_for fuel g env st)) !! g = Some Finished.
Proof.
  induction fuel as [|fuel IH]; intros env st g Hg Hrun; [done|].
  simpl in *. unfold bind at 1 in Hrun. unfold bind at 1.
  pose proof (anext_stepped env st g Hg) as Hs. unfold stepped in Hs.
  destruct (anext g env st) as [[[c|]| e|] st1]; simpl in *; try done.
  destruct Hs as (p & f & Hg1).
  assert (Hsome : is_Some (gens st1 !! g)) by (rewrite Hg1; eauto).
  specialize (IH env st1 g Hsome). unfold bind in *.
  destruct (async_for fuel g env st1) as [[rest| |] st2]; simpl in *;
    by apply IH.
Qed.

Lemma exec_ops_finished env g ops :
  forall st, gens st !! g = Some Finished -> exec_ops env g ops st = st.
Proof.
  induction ops as [|op ops IH]; intros st Hg; [done|].
  simpl. destruct op; simpl.
  - unfold bind, ret. rewrite (anext_finished _ _ _ Hg). simpl. by apply IH.
  - rewrite aclose_unfold, Hg. simpl. by apply IH.
Qed.

(** A stream is read once. When the iteration of a generator is over, with
    all chunks delivered or with an exception, the generator is finished:
    iterating it again gives no chunk, and nothing a consumer does to it
    afterwards opens, reads or closes a file. *)
Theorem stream_is_read_once env st path :
  let g := next_gen st in
  let st1 := snd (read_all path env st) in
  gens st1 !! g = Some Finished
  /\ drain g env st1 = (Ok [], st1)
  /\ forall ops, exec_ops env g ops st1 = st1.
Proof.
  intros g st1.
  assert (Hfin : gens st1 !! g = Some Finished).
  { unfold st1. destruct (read_all_unfold path env st) as [-> Hg].
    unfold drain. apply async_for_ended.
    - rewrite Hg. eauto.
    - apply async_for_total. lia. }
  split; [done|]. split; [|intros ops; by apply exec_ops_finished].
  unfold drain. cbn [async_for]. unfold bind.
  by rewrite (anext_finished _ _ _ Hfin).
Qed.

(** ** Independent streams *)

Lemma read_chunk_frame env st g p f g' :
  g <> g' -> gens (snd (read_chunk g p f env st)) !! g' = gens st !! g'.
Proof.
  intros Hne. run_monad.
  destruct (handles st !! f) as [h|]; simpl; [|by rewrite lookup_insert_ne].
  destruct (fs env !! h_path h) as [fl|]; simpl; [|by rewrite lookup_insert_ne].
  destruct (faulty _ _ _); simpl; [by rewrite lookup_insert_ne|].
  destruct (take chunk_size (drop (h_pos h) (content fl))) as [|b c]; simpl;
    by rewrite lookup_insert_ne.
Qed.

Lemma anext_frame env st g g' :
  g <> g' -> gens (snd (anext g env st)) !! g' = gens st !! g'.
Proof.
  intros Hne. destruct (gens st !! g) as [[p|p f|]|] eqn:Hg.
  - destruct (fs env !! p) as [fl|] eqn:Hfs.
    + destruct (readable fl) eqn:Hr.
      * rewrite (anext_created _ _ _ _ _ Hg Hfs Hr).
        by rewrite read_chunk_frame.
      * rewrite (anext_open_fails _ _ _ _ Hg); [|right; eauto].
        simpl. by rewrite lookup_insert_ne.
    + rewrite (anext_open_fails _ _ _ _ Hg); [|by left].
      simpl. by rewrite lookup_insert_ne.
  - rewrite (anext_suspended _ _ _ _ _ Hg). by apply read_chunk_frame.
  - by rewrite (anext_finished _ _ _ Hg).
  - unfold anext, bind, get_gen. by rewrite Hg.
Qed.

Lemma aclose_frame env st g g' :
  g <> g' -> gens (snd (aclose g env st)) !! g' = gens st !! g'.
Proof.
  intros Hne. rewrite aclose_unfold.
  destruct (gens st !! g) as [[p|p f|]|]; simpl;
    try done; by rewrite lookup_insert_ne.
Qed.

Lemma exec_ops_frame env g g' ops :
  g <> g' ->
  forall st, gens (exec_ops env g ops st) !! g' = gens st !! g'.
Proof.
  intros Hne. induction ops as [|op ops IH]; intros st; [done|].
  simpl. rewrite IH. destruct op; simpl.
  - pose proof (anext_frame env st g g' Hne) as H.
    unfold bind, ret. by destruct (anext g env st) as [[]].
  - by apply aclose_frame.
Qed.

Lemma async_for_frame fuel g g' :
  g <> g' ->
  forall env st, gens (snd (async_for fuel g env st)) !! g' = gens st !! g'.
Proof.
  intros Hne. induction fuel as [|fuel IH]; intros env st; [done|].
  simpl. unfold bind at 1.
  pose proof (anext_frame env st g g' Hne) as H.
  destruct (anext g env st) as [[[c|]| e|] st1]; simpl in *; try done.
  rewrite <- H, <- (IH env st1). unfold bind.
  by destruct (async_for fuel g env st1) as [[]].
Qed.

Lemma read_chunk_keeps env st g p f f' :
  f <> f' ->
  handles (snd (read_chunk g p f env st)) !! f' = handles st !! f'
  /\ next_fd (snd (read_chunk g p f env st)) = next_fd st
  /\ file_of (snd (read_chunk g p f env st)) g <> Some f'.
Proof.
  intros Hne. unfold file_of. run_monad.
  destruct (handles st !! f) as [h|]; simpl.
  - destruct (fs env !! h_path h) as [fl|]; simpl.
    + destruct (faulty _ _ _); simpl.
      * by rewrite lookup_insert_eq, lookup_delete_ne.
      * destruct (take chunk_size (drop (h_pos h) (content fl))) as [|b c];
          simpl; rewrite lookup_insert_eq.
        -- by rewrite lookup_delete_ne, lookup_insert_ne.
        -- rewrite lookup_insert_ne by done. split; [done|]. split; [done|].
           by intros [= ->].
    + by rewrite lookup_insert_eq, lookup_delete_ne.
  - by rewrite lookup_insert_eq, lookup_delete_ne.
Qed.

(** A step of [g] touches no file object that was there before and is not
    the one [g] holds. *)
Lemma anext_keeps env st g f' :
  f' < next_fd st -> file_of st g <> Some f' ->
  handles (snd (anext g env st)) !! f' = handles st !! f'
  /\ f' < next_fd (snd (anext g env st))
  /\ file_of (snd (anext g env st)) g <> Some f'.
Proof.
  intros Hlt Hf. unfold file_of in Hf.
  destruct (gens st !! g) as [[p|p f|]|] eqn:Hg.
  - destruct (fs env !! p) as [fl|] eqn:Hfs.
    + destruct (readable fl) eqn:Hr.
      * rewrite (anext_created _ _ _ _ _ Hg Hfs Hr).
        destruct (read_chunk_keeps env (opened p st) g p (next_fd st) f')
          as (Hh & Hn & Hfile); [lia|].
        rewrite Hh, Hn. simpl. rewrite lookup_insert_ne by lia.
        split; [done|]. split; [lia|done].
      * rewrite (anext_open_fails _ _ _ _ Hg); [|right; eauto].
        unfold file_of. simpl. by rewrite lookup_insert_eq.
    + rewrite (anext_open_fails _ _ _ _ Hg); [|by left].
      unfold file_of. simpl. by rewrite lookup_insert_eq.
  - rewrite (anext_suspended _ _ _ _ _ Hg).
    destruct (read_chunk_keeps env st g p f f') as (Hh & Hn & Hfile).
    { by intros ->. }
    rewrite Hh, Hn. done.
  - rewrite (anext_finished _ _ _ Hg). unfold file_of. simpl. by rewrite Hg.
  - unfold anext, bind, get_gen, file_of. rewrite Hg. simpl. by rewrite Hg.
Qed.

Lemma aclose_keeps env st g f' :
  f' < next_fd st -> file_of st g <> Some f' ->
  handles (snd (aclose g env st)) !! f' = handles st !! f'
  /\ f' < next_fd (snd (aclose g env st))
  /\ file_of (snd (aclose g env st)) g <> Some f'.
Proof.
  intros Hlt Hf. unfold file_of in *. rewrite aclose_unfold.
  destruct (gens st !! g) as [[p|p f|]|] eqn:Hg; simpl.
  - by rewrite lookup_insert_eq.
  - rewrite lookup_insert_eq, lookup_delete_ne; [done|by intros ->].
  - by rewrite Hg.
  - by rewrite Hg.
Qed.

Lemma exec_ops_keeps env g f' ops :
  forall st,
    f' < next_fd st -> file_of st g <> Some f' ->
    handles (exec_ops env g ops st) !! f' = handles st !! f'.
Proof.
  induction ops as [|op ops IH]; intros st Hlt Hf; [done|].
  simpl. destruct op; simpl.
  - destruct (anext_keeps env st g f' Hlt Hf) as (Hh & Hn & Hfile).
    unfold bind, ret.
    destruct (anext g env st) as [[r|e|] st1]; simpl in *;
      by rewrite IH.
  - destruct (aclose_keeps env st g f' Hlt Hf) as (Hh & Hn & Hfile).
    by rewrite IH.
Qed.

Lemma async_for_keeps env g f' fuel :
  forall st,
    f' < next_fd st -> file_of st g <> Some f' ->
    handles (snd (async_for fuel g env st)) !! f' = handles st !! f'.
Proof.
  induction fuel as [|fuel IH]; intros st Hlt Hf; [done|].
  simpl. unfold bind at 1.
  destruct (anext_keeps env st g f' Hlt Hf) as (Hh & Hn & Hfile).
  destruct (anext g env st) as [[[c|]| e|] st1]; simpl in *; try done.
  rewrite <- Hh, <- (IH st1 Hn Hfile). unfold bind.
  by destruct (async_for fuel g env st1) as [[]].
Qed.

(** What a read returns depends on the file object only. *)
Lemma read_chunk_same env g p1 p2 f1 f2 st1 st2 :
  handles st1 !! f1 = handles st2 !! f2 ->
  fst (read_chunk g p1 f1 env st1) = fst (read_chunk g p2 f2 env st2)
  /\ same_stream g (snd (read_chunk g p1 f1 env st1))
       (snd (read_chunk g p2 f2 env st2)).
Proof.
  intros Hh. unfold same_stream. run_monad. rewrite Hh.
  destruct (handles st2 !! f2) as [h|]; simpl.
  - destruct (fs env !! h_path h) as [fl|]; simpl.
    + destruct (faulty _ _ _); simpl.
      * by rewrite !lookup_insert_eq.
      * destruct (take chunk_size (drop (h_pos h) (content fl))) as [|b c];
          simpl; by rewrite !lookup_insert_eq.
    + by rewrite !lookup_insert_eq.
  - by rewrite !lookup_insert_eq.
Qed.

Lemma anext_same env g st1 st2 :
  same_stream g st1 st2 ->
  fst (anext g env st1) = fst (anext g env st2)
  /\ same_stream g (snd (anext g env st1)) (snd (anext g env st2)).
Proof.
  intros Hs. unfold same_stream in Hs.
  destruct (gens st1 !! g) as [[p1|p1 f1|]|] eqn:Hg1;
    destruct (gens st2 !! g) as [[p2|p2 f2|]|] eqn:Hg2; try done.
  - subst p2. destruct (fs env !! p1) as [fl|] eqn:Hfs.
    + destruct (readable fl) eqn:Hr.
      * rewrite (anext_created _ _ _ _ _ Hg1 Hfs Hr),
          (anext_created _ _ _ _ _ Hg2 Hfs Hr).
        apply read_chunk_same. simpl. by rewrite !lookup_insert_eq.
      * rewrite (anext_open_fails _ _ _ _ Hg1), (anext_open_fails _ _ _ _ Hg2);
          try (right; eauto).
        unfold same_stream. simpl. by rewrite !lookup_insert_eq.
    + rewrite (anext_open_fails _ _ _ _ Hg1), (anext_open_fails _ _ _ _ Hg2);
        try (by left).
      unfold same_stream. simpl. by rewrite !lookup_insert_eq.
  - rewrite (anext_suspended _ _ _ _ _ Hg1), (anext_suspended _ _ _ _ _ Hg2).
    by apply read_chunk_same.
  - rewrite (anext_finished _ _ _ Hg1), (anext_finished _ _ _ Hg2).
    unfold same_stream. simpl. by rewrite Hg1, Hg2.
  - unfold anext, bind, get_gen. rewrite Hg1, Hg2.
    unfold same_stream. simpl. by rewrite Hg1, Hg2.
Qed.

Lemma async_for_same env g fuel :
  forall st1 st2,
    same_stream g st1 st2 ->
    fst (async_for fuel g env st1) = fst (async_for fuel g env st2).
Proof.
  induction fuel as [|fuel IH]; intros st1 st2 Hs; [done|].
  simpl. unfold bind at 1 3.
  destruct (anext_same env g st1 st2 Hs) as [Hfst Hs'].
  destruct (anext g env st1) as [r1 st1'], (anext g env st2) as [r2 st2'].
  simpl in *. subst r2. destruct r1 as [[c|]| e|]; try done.
  unfold bind. specialize (IH st1' st2' Hs').
  destruct (async_for fuel g env st1') as [r1 ?],
    (async_for fuel g env st2') as [r2 ?].
  simpl in *. subst r2. by destruct r1.
Qed.

Lemma remaining_same env g st1 st2 :
  same_stream g st1 st2 -> remaining env st1 g = remaining env st2 g.
Proof.
  unfold same_stream, remaining.
  destruct (gens st1 !! g) as [[p1|p1 f1|]|];
    destruct (gens st2 !! g) as [[p2|p2 f2|]|]; try done.
  - by intros ->.
  - by intros ->.
Qed.

Lemma drain_same env g st1 st2 :
  same_stream g st1 st2 -> fst (drain g env st1) = fst (drain g env st2).
Proof.
  intros Hs. unfold drain. rewrite (remaining_same env g st1 st2 Hs).
  by apply async_for_same.
Qed.

(** Streams do not interfere. Whatever is done to one generator, stepping
    it any number of times, closing it or draining it, another generator
    stays where it was: its state, its file object and the position in it
    are untouched, and its next step and the rest of its stream give what
    they would have given before. The other generator's file object is one
    that exists and that the first generator does not hold. *)
Theorem streams_independent env st g g' st' :
  g <> g' ->
  (forall p f, gens st !! g' = Some (Suspended p f) ->
     f < next_fd st /\ file_of st g <> Some f) ->
  (exists ops, st' = exec_ops env g ops st) \/ st' = snd (drain g env st) ->
  gens st' !! g' = gens st !! g'
  /\ (forall p f, gens st !! g' = Some (Suspended p f) ->
        handles st' !! f = handles st !! f)
  /\ fst (anext g' env st') = fst (anext g' env st)
  /\ fst (drain g' env st') = fst (drain g' env st).
Proof.
  intros Hne Hfile Hst'.
  assert (Hgens : gens st' !! g' = gens st !! g').
  { destruct Hst' as [[ops ->]| ->].
    - by apply exec_ops_frame.
    - unfold drain. by apply async_for_frame. }
  assert (Hhandles : forall p f, gens st !! g' = Some (Suspended p f) ->
            handles st' !! f = handles st !! f).
  { intros p f Hg'. destruct (Hfile p f Hg') as [Hlt Hf].
    destruct Hst' as [[ops ->]| ->].
    - by apply exec_ops_keeps.
    - unfold drain. by apply async_for_keeps. }
  assert (Hs : same_stream g' st' st).
  { unfold same_stream. rewrite Hgens.
    destruct (gens st !! g') as [[p|p f|]|] eqn:Hg'; try done.
    by apply (Hhandles p f). }
  split; [done|]. split; [done|]. split.
  - by apply anext_same.
  - by apply drain_same.
Qed.

Lemma streams_independent_witness :
  let st' := exec_ops scenario_env 0 [OpNext; OpClose] two_streams in
  gens st' !! 1 = gens two_streams !! 1
  /\ (forall p f, gens two_streams !! 1 = Some (Suspended p f) ->
        handles st' !! f = handles two_streams !! f)
  /\ fst (anext 1 scenario_env st') = fst (anext 1 scenario_env two_streams)
  /\ fst (drain 1 scenario_env st') = fst (drain 1 scenario_env two_streams).
Proof.
  apply (streams_independent scenario_env two_streams 0 1).
  - lia.
  - intros p f Hg. vm_compute in Hg. injection Hg as _ <-.
    split; [vm_compute; lia|by vm_compute].
  - left. by exists [OpNext; OpClose].
Defined.

(** In that state generator 1 holds file object 0 at offset 65536, and
    what is left of its stream are three chunks. *)
Example two_streams_state :
  gens two_streams !! 1 = Some (Suspended file_name 0)
  /\ (fun h => Z.of_nat (h_pos h)) <$> handles two_streams !! 0
     = Some 65536%Z
  /\ match fst (drain 1 scenario_env two_streams) with
     | Ok cs => (fun c => Z.of_nat (length c)) <$> cs
     | _ => []
     end = [65536; 65536; 3392]%Z.
Proof. split; [by vm_compute|]. split; by vm_compute. Qed.

(** ** What a step can raise *)

Lemma read_chunk_raises env st g p f e :
  is_Some (handles st !! f) ->
  fst (read_chunk g p f env st) = Raise e -> e = IOError.
Proof.
  intros [h Hh]. run_monad. rewrite Hh. simpl.
  destruct (fs env !! h_path h) as [fl|]; simpl; [|by intros [= <-]].
  destruct (faulty _ _ _); simpl; [by intros [= <-]|].
  by destruct (take chunk_size (drop (h_pos h) (content fl))).
Qed.

Lemma anext_raises base env st g e :
  holds_only base g st ->
  fst (anext g env st) = Raise e -> e = FileNotFoundError \/ e = IOError.
Proof.
  intros [_ Hg].
  destruct (gens st !! g) as [[p|p f|]|] eqn:Hgen; [| | |done].
  - destruct (fs env !! p) as [fl|] eqn:Hfs.
    + destruct (readable fl) eqn:Hr.
      * rewrite (anext_created _ _ _ _ _ Hgen Hfs Hr). intros He. right.
        assert (Hh : is_Some (handles (opened p st) !! next_fd st))
          by (simpl; rewrite lookup_insert_eq; eauto).
        exact (read_chunk_raises _ _ _ _ _ _ Hh He).
      * rewrite (anext_open_fails _ _ _ _ Hgen); [|right; eauto].
        intros [= <-]. by left.
    + rewrite (anext_open_fails _ _ _ _ Hgen); [|by left].
      intros [= <-]. by left.
  - rewrite (anext_suspended _ _ _ _ _ Hgen). intros He. right.
    destruct Hg as (_ & pos & Hh).
    assert (Hf : is_Some (handles st !! f))
      by (rewrite Hh, lookup_insert_eq; eauto).
    exact (read_chunk_raises _ _ _ _ _ _ Hf He).
  - by rewrite (anext_finished _ _ _ Hgen).
Qed.

Lemma aclose_ok base env st g :
  holds_only base g st -> fst (aclose g env st) = Ok tt.
Proof.
  intros [_ Hg]. rewrite aclose_unfold.
  by destruct (gens st !! g) as [[p|p f|]|].
Qed.

(** However a consumer drives a [file_sender] stream, the only exceptions
    that come out of a step are those of the file system, from the open
    or from a read: the generator never reads a file object it has closed,
    and closing the stream never raises. *)
Theorem only_file_errors env st path ops :
  fds_fresh st ->
  let g := next_gen st in
  let st' := exec_ops env g ops (snd (file_sender path env st)) in
  (forall e, fst (anext g env st') = Raise e ->
     e = FileNotFoundError \/ e = IOError)
  /\ fst (aclose g env st') = Ok tt.
Proof.
  intros Hfresh g st'.
  assert (Hst' : holds_only (handles st) g st')
    by apply exec_ops_holds, file_sender_holds, Hfresh.
  split.
  - intros e. by apply (anext_raises (handles st)).
  - by apply (aclose_ok (handles st)).
Qed.

Lemma only_file_errors_witness :
  (IOError = FileNotFoundError \/ IOError = IOError)
  /\ fst (aclose 0 (demo_env damaged true created)
            (snd (file_sender file_name (demo_env damaged true created) init)))
     = Ok tt.
Proof.
  destruct (only_file_errors (demo_env damaged true created) init file_name []
              init_fresh) as [H1 H2].
  split; [apply H1; by vm_compute|exact H2].
Defined.

(** ** The file operations of one stream *)

Lemma loop_at_read_log env g path f fl :
  fs env !! path = Some fl ->
  fault_at fl = None ->
  forall k st pos,
    handles st !! f = Some (Handle path pos) ->
    length (content fl) - pos <= k ->
    exists cs,
      loop_at_read k g path f env st =
        (Ok cs,
         mkState (delete f (handles st)) (next_fd st)
           (<[g := Finished]> (gens st)) (next_gen st)
           (log st ++ reads_of f cs ++ [EvRead f 0; EvClose f])).
Proof.
  intros Hfs Hnf. induction k as [|k IH]; intros st pos Hh Hk.
  all: destruct (take chunk_size (drop pos (content fl))) as [|b c] eqn:Hc.
  all: try (apply take_nil_inv in Hc; [|apply chunk_size_pos];
            exists []; unfold loop_at_read, bind;
            by rewrite (read_chunk_eof _ _ _ _ _ _ _ _ Hh Hfs Hc)).
  - rewrite drop_ge in Hc by lia. by destruct chunk_size.
  - assert (Hlen : length (b :: c) <= length (content fl) - pos).
    { rewrite <- Hc, length_take, length_drop. lia. }
    unfold loop_at_read, bind at 1.
    rewrite (read_chunk_more _ _ _ _ _ _ _ _ _ Hh Hfs Hc); [|done|].
    2: { unfold faulty. by rewrite Hnf. }
    unfold bind at 1. erewrite async_for_suspended.
    2: { simpl. apply lookup_insert_eq. }
    match goal with |- context [loop_at_read k g path f env ?s] =>
      destruct (IH s (pos + length (b :: c))) as (cs & ->)
    end.
    { simpl. apply lookup_insert_eq. }
    { simpl in *. lia. }
    exists ((b :: c) :: cs).
    unfold ret. f_equal. cbn [handles next_fd gens next_gen log].
    apply state_eq.
    + by rewrite delete_insert_eq.
    + by rewrite insert_insert_eq.
    + by rewrite <- app_assoc.
Qed.

Lemma drain_fresh_log env st g path fl :
  gens st !! g = Some (Created path) ->
  healthy env path fl ->
  exists cs,
    drain g env st =
      (Ok cs,
       mkState (delete (next_fd st) (handles st)) (S (next_fd st))
         (<[g := Finished]> (gens st)) (next_gen st)
         (log st ++ EvOpen path (next_fd st) :: reads_of (next_fd st) cs
            ++ [EvRead (next_fd st) 0; EvClose (next_fd st)])).
Proof.
  intros Hg (Hfs & Hr & Hnf). unfold drain, remaining. rewrite Hg, Hfs.
  rewrite (async_for_created _ _ _ _ _ _ Hg Hfs Hr).
  destruct (loop_at_read_log env g path (next_fd st) fl Hfs Hnf
              (S (length (content fl))) (opened path st) 0)
    as (cs & ->).
  { simpl. apply lookup_insert_eq. }
  { lia. }
  exists cs.
  f_equal. cbn [opened add_log handles next_fd gens next_gen log].
  apply state_eq; [by rewrite delete_insert_eq|done|by rewrite <- app_assoc].
Qed.

(** What reading a file through [file_sender] does to the file system: one
    open, one read for every chunk that is delivered, one more read that
    finds the end of the file, and one close; nothing else, and in this
    order. *)
Theorem read_all_io_sequence env st path fl :
  healthy env path fl ->
  exists cs,
    fst (read_all path env st) = Ok cs
    /\ trace (read_all path) env st =
         EvOpen path (next_fd st) :: reads_of (next_fd st) cs
         ++ [EvRead (next_fd st) 0; EvClose (next_fd st)].
Proof.
  intros Hfl.
  destruct (read_all_unfold path env st) as [Hall Hg].
  destruct (drain_fresh_log env _ _ path fl Hg Hfl) as (cs & Hd).
  exists cs. unfold trace. rewrite Hall, Hd. split; [done|].
  cbn [snd log file_sender next_fd]. by rewrite drop_app_length.
Qed.

Lemma read_all_io_sequence_witness :
  exists cs,
    fst (read_all file_name (demo_env (png three_bytes) true created) init)
      = Ok cs
    /\ trace (read_all file_name) (demo_env (png three_bytes) true created)
         init
       = EvOpen file_name 0 :: reads_of 0 cs ++ [EvRead 0 0; EvClose 0].
Proof.
  exact (read_all_io_sequence (demo_env (png three_bytes) true created) init
           file_name (File three_bytes true None) (demo_healthy _ _ _)).
Defined.

(** ** The files after an iteration *)

Lemma async_for_holds base env g fuel :
  forall st,
    holds_only base g st ->
    remaining env st g < fuel ->
    holds_only base g (snd (async_for fuel g env st))
    /\ gens (snd (async_for fuel g env st)) !! g = Some Finished.
Proof.
  induction fuel as [|fuel IH]; intros st Hst Hlt; [lia|].
  simpl. unfold bind at 1 3.
  destruct (anext_holds base env st g Hst) as [Hst1 Hend].
  pose proof (anext_progress env st g) as Hprog.
  unfold ended_unless_yield in Hend.
  destruct (anext g env st) as [[[c|]| e|] st1]; simpl in *; try done.
  destruct Hprog as [_ Hprog].
  destruct (IH st1 Hst1 ltac:(lia)) as [H1 H2]. unfold bind.
  by destruct (async_for fuel g env st1) as [[]].
Qed.

(** Draining a generator that is not in the middle of its file leaves the
    open files as they were, and the generator finished. *)
Lemma drain_idle base env st g :
  (forall f, next_fd st <= f -> base !! f = None) ->
  handles st = base ->
  idle st g ->
  let st' := snd (drain g env st) in
  (forall f, next_fd st' <= f -> base !! f = None)
  /\ handles st' = base
  /\ gens st' !! g = Some Finished.
Proof.
  intros Hfresh Hh Hidle.
  assert (Hst : holds_only base g st).
  { split; [done|]. by destruct Hidle as [->|[p ->]]. }
  destruct (async_for_holds base env g (S (remaining env st g)) st Hst)
    as [[Hf Hg] Hfin]; [lia|].
  fold (drain g env st) in Hf, Hg, Hfin. cbv zeta.
  rewrite Hfin in Hg. done.
Qed.

(** Iterating a [file_sender] stream to its end with [async for] leaves the
    open files exactly as they were, in every world: when the file is read
    to its end, when it cannot be opened, and when a read fails on the
    way. The same holds for a generator that is iterated again after it
    has finished. *)
Theorem iteration_closes_the_file env st :
  fds_fresh st ->
  (forall path, handles (snd (read_all path env st)) = handles st)
  /\ (forall g, idle st g ->
        handles (snd (drain g env st)) = handles st
        /\ gens (snd (drain g env st)) !! g = Some Finished).
Proof.
  intros Hfresh. split.
  - intros path. destruct (read_all_unfold path env st) as [-> Hg].
    destruct (drain_idle (handles st) env (snd (file_sender path env st))
                (next_gen st)) as (_ & Hh & _); [done|done| |done].
    right. eauto.
  - intros g Hidle.
    destruct (drain_idle (handles st) env st g) as (_ & Hh & Hg); done.
Qed.

Lemma iteration_closes_the_file_witness :
  handles (snd (read_all file_name (demo_env damaged true created) init)) = ∅.
Proof.
  exact (proj1 (iteration_closes_the_file (demo_env damaged true created) init
                  init_fresh) file_name).
Defined.
